(** * Alan-SumGame: the simulation engine of [src/App.tsx]

    A shallow embedding of the game logic held in the React component
    [App]: the block grid, the selection, the sum-check effect (clear
    event, gravity, level progression), the row spawn and the scroll
    timer.

    Conventions of the embedding.
    - JavaScript numbers that only ever hold integers (values, rows,
      columns, score, level, counters) are [Z]; [scrollProgress] and the
      speed are exact rationals [Q].
    - The component's [useState] cells are the fields of [State]; a call
      [setX(v)] or [setX(prev => f prev)] is the setter [setX] applied to
      the state: what a functional updater returns becomes the value of
      the cell.  React queues the updater and runs it after the handler
      that queued it has gone on, so a local variable of the handler that
      the updater assigns still holds its initial value when the handler
      reads it right after the call (see [addNewRow]).
    - [Math.random()] is an explicit input: a rational [u] with
      [0 <= u < 1]; [generateId()] is an explicit input string.  The
      definitions are total in these inputs, so every theorem quantified
      over them covers all outcomes of the generator.
    - Calls that leave the engine ([confetti], [setTimeout]) and the
      invocation of [addNewRow] by the timer are recorded as [Signal]s. *)

From Stdlib Require Import QArith Qround Lqa.
From stdpp Require Import base tactics list sorting strings.

Local Open Scope Z_scope.

(** ** Constants ([types/game.ts], [App.tsx] l.116-118) *)

Definition GRID_ROWS : Z := 10.
Definition GRID_COLS : Z := 6.
Definition INITIAL_ROWS : Z := 4.
Definition TIME_LIMIT : Z := 15.

Definition BLOCKS_PER_ROW : Z := GRID_COLS.
Definition ROWS_PER_LEVEL : Z := 5.
Definition BLOCKS_PER_LEVEL : Z := BLOCKS_PER_ROW * ROWS_PER_LEVEL.

(** ** Data model *)

Inductive GameMode := classic | time.

Module Block.
(** [interface Block]; the optional [isNew] is [None] when absent. *)
Record t := mk {
  id : string;
  value : Z;
  row : Z;
  col : Z;
  isNew : option bool
}.

(** [{ ...b, row: r }] *)
Definition withRow (r : Z) (b : t) : t :=
  {| id := id b; value := value b; row := r; col := col b; isNew := isNew b |}.

(** The grid cell a block occupies. *)
Definition cell (b : t) : Z * Z := (row b, col b).
End Block.

Abbreviation Block := Block.t.

(** The [useState] cells of [App] that the engine reads or writes. *)
Record State := mkState {
  blocks : list Block;
  targetSum : Z;
  score : Z;
  selectedIds : list string;
  gameOver : bool;
  mode : GameMode;
  isPaused : bool;
  level : Z;
  gameStarted : bool;
  startLevel : Z;
  scrollProgress : Q;
  blocksClearedInLevel : Z;
  showLevelUp : bool
}.

(** Calls observable from outside the state. *)
Inductive Signal :=
| SpawnRow        (* the timer invoked [addNewRow] *)
| Confetti        (* [confetti(...)], the clear event's celebration *)
| LevelUpTimeout. (* [setTimeout(() => setShowLevelUp(false), 2000)] *)

Global Instance Signal_eq_dec : EqDecision Signal.
Proof. solve_decision. Defined.

(** ** State setters *)

Definition setBlocks (f : list Block → list Block) (s : State) : State :=
  mkState (f (blocks s)) (targetSum s) (score s) (selectedIds s) (gameOver s)
    (mode s) (isPaused s) (level s) (gameStarted s) (startLevel s)
    (scrollProgress s) (blocksClearedInLevel s) (showLevelUp s).

Definition setTargetSum (v : Z) (s : State) : State :=
  mkState (blocks s) v (score s) (selectedIds s) (gameOver s)
    (mode s) (isPaused s) (level s) (gameStarted s) (startLevel s)
    (scrollProgress s) (blocksClearedInLevel s) (showLevelUp s).

Definition setScore (f : Z → Z) (s : State) : State :=
  mkState (blocks s) (targetSum s) (f (score s)) (selectedIds s) (gameOver s)
    (mode s) (isPaused s) (level s) (gameStarted s) (startLevel s)
    (scrollProgress s) (blocksClearedInLevel s) (showLevelUp s).

Definition setSelectedIds (f : list string → list string) (s : State) : State :=
  mkState (blocks s) (targetSum s) (score s) (f (selectedIds s)) (gameOver s)
    (mode s) (isPaused s) (level s) (gameStarted s) (startLevel s)
    (scrollProgress s) (blocksClearedInLevel s) (showLevelUp s).

Definition setGameOver (v : bool) (s : State) : State :=
  mkState (blocks s) (targetSum s) (score s) (selectedIds s) v
    (mode s) (isPaused s) (level s) (gameStarted s) (startLevel s)
    (scrollProgress s) (blocksClearedInLevel s) (showLevelUp s).

Definition setMode (v : GameMode) (s : State) : State :=
  mkState (blocks s) (targetSum s) (score s) (selectedIds s) (gameOver s)
    v (isPaused s) (level s) (gameStarted s) (startLevel s)
    (scrollProgress s) (blocksClearedInLevel s) (showLevelUp s).

Definition setIsPaused (v : bool) (s : State) : State :=
  mkState (blocks s) (targetSum s) (score s) (selectedIds s) (gameOver s)
    (mode s) v (level s) (gameStarted s) (startLevel s)
    (scrollProgress s) (blocksClearedInLevel s) (showLevelUp s).

Definition setLevel (f : Z → Z) (s : State) : State :=
  mkState (blocks s) (targetSum s) (score s) (selectedIds s) (gameOver s)
    (mode s) (isPaused s) (f (level s)) (gameStarted s) (startLevel s)
    (scrollProgress s) (blocksClearedInLevel s) (showLevelUp s).

Definition setGameStarted (v : bool) (s : State) : State :=
  mkState (blocks s) (targetSum s) (score s) (selectedIds s) (gameOver s)
    (mode s) (isPaused s) (level s) v (startLevel s)
    (scrollProgress s) (blocksClearedInLevel s) (showLevelUp s).

Definition setStartLevel (f : Z → Z) (s : State) : State :=
  mkState (blocks s) (targetSum s) (score s) (selectedIds s) (gameOver s)
    (mode s) (isPaused s) (level s) (gameStarted s) (f (startLevel s))
    (scrollProgress s) (blocksClearedInLevel s) (showLevelUp s).

Definition setScrollProgress (v : Q) (s : State) : State :=
  mkState (blocks s) (targetSum s) (score s) (selectedIds s) (gameOver s)
    (mode s) (isPaused s) (level s) (gameStarted s) (startLevel s)
    v (blocksClearedInLevel s) (showLevelUp s).

Definition setBlocksClearedInLevel (v : Z) (s : State) : State :=
  mkState (blocks s) (targetSum s) (score s) (selectedIds s) (gameOver s)
    (mode s) (isPaused s) (level s) (gameStarted s) (startLevel s)
    (scrollProgress s) v (showLevelUp s).

Definition setShowLevelUp (v : bool) (s : State) : State :=
  mkState (blocks s) (targetSum s) (score s) (selectedIds s) (gameOver s)
    (mode s) (isPaused s) (level s) (gameStarted s) (startLevel s)
    (scrollProgress s) (blocksClearedInLevel s) v.

(** Setters are chained left to right, as the statements of a handler. *)
Notation "s '|>' f" := (f s) (at level 45, left associativity, only parsing).

(** ** Helpers (l.36-45) *)

(** One block's worth of generator output: the string returned by
    [generateId()] and the number returned by [Math.random()]. *)
Record Draw := mkDraw { drawId : string; drawRandom : Q }.

(** [Math.floor(Math.random() * 10) + 1] *)
Definition getRandomValue (u : Q) : Z := Qfloor (u * 10) + 1.

(** [Math.floor(Math.random() * (10 + Math.floor(level / 3))) + 5] *)
Definition generateTarget (level : Z) (u : Q) : Z :=
  Qfloor (u * inject_Z (10 + level / 3)) + 5.

(** ** [initGame] (l.155-179) *)

Definition initialBlocks (dr : Z → Z → Draw) : list Block :=
  r ← seqZ 0 INITIAL_ROWS;
  c ← seqZ 0 GRID_COLS;
  [ Block.mk (drawId (dr r c)) (getRandomValue (drawRandom (dr r c)))
      (GRID_ROWS - 1 - r) c None ].

Definition initGame (selectedMode : GameMode) (dr : Z → Z → Draw) (u : Q)
    (s : State) : State :=
  s |> setBlocks (λ _, initialBlocks dr)
    |> setTargetSum (generateTarget (startLevel s) u)
    |> setScore (λ _, 0)
    |> setSelectedIds (λ _, [])
    |> setGameOver false
    |> setMode selectedMode
    |> setLevel (λ _, startLevel s)
    |> setIsPaused false
    |> setGameStarted true
    |> setScrollProgress 0%Q
    |> setBlocksClearedInLevel 0
    |> setShowLevelUp false.

(** ** [addNewRow] (l.182-215) *)

(** [prev.some(b => b.row <= 0)] *)
Definition willBeGameOver (prev : list Block) : bool :=
  existsb (λ b, Block.row b <=? 0) prev.

Definition pushedBlocks (prev : list Block) : list Block :=
  (λ b, Block.withRow (Block.row b - 1) b) <$> prev.

Definition newRow (dr : Z → Draw) : list Block :=
  (λ c, Block.mk (drawId (dr c)) (getRandomValue (drawRandom (dr c)))
          (GRID_ROWS - 1) c (Some true)) <$> seqZ 0 GRID_COLS.

(** [addNewRow] declares [let isGameOver = false], gives [setBlocks] an
    updater that assigns the flag, and tests the flag right after the
    call.  The updater is queued: the list it returns becomes [blocks],
    but the flag is still [false] when [if (isGameOver)] reads it, and
    [setGameOver(true)] is not reached. *)
Definition addNewRow (dr : Z → Draw) (s : State) : State :=
  let isGameOver := false in
  let s1 :=
    s |> setBlocks (λ prev,
           if willBeGameOver prev then prev
           else pushedBlocks prev ++ newRow dr) in
  let s2 := if isGameOver then s1 |> setGameOver true else s1 in
  s2 |> setScrollProgress 0%Q.

(** ** [toggleBlock] (l.218-227) *)

Definition toggleBlock (id : string) (s : State) : State :=
  if gameOver s || isPaused s then s
  else
    s |> setSelectedIds (λ prev,
           if bool_decide (id ∈ prev) then filter (λ i, i ≠ id) prev
           else prev ++ [id]).

(** ** The sum-check effect (l.230-288) *)

(** [blocks.filter(b => selectedIds.includes(b.id))
          .reduce((sum, b) => sum + b.value, 0)] *)
Definition currentSum (s : State) : Z :=
  foldl (λ sum b, sum + Block.value b) 0
    (filter (λ b, Block.id b ∈ selectedIds s) (blocks s)).

(** [prev.filter(b => !selectedIds.includes(b.id))] *)
Definition remaining (sel : list string) (prev : list Block) : list Block :=
  filter (λ b, Block.id b ∉ sel) prev.

(** [.sort((a, b) => b.row - a.row)]: [Array.prototype.sort] is stable, so
    the result is the stable arrangement by descending row; it is computed
    here by insertion from the right. *)
Fixpoint insertByRowDesc (b : Block) (l : list Block) : list Block :=
  match l with
  | [] => [b]
  | x :: l' =>
      if Block.row b <? Block.row x then x :: insertByRowDesc b l'
      else b :: x :: l'
  end.

Definition sortByRowDesc (l : list Block) : list Block :=
  foldr insertByRowDesc [] l.

(** [remaining.filter(b => b.col === c).sort(...)] *)
Definition colBlocks (c : Z) (rem : list Block) : list Block :=
  sortByRowDesc (filter (λ b, Block.col b = c) rem).

(** [colBlocks.forEach((b, idx) => newBlocks.push({...b, row: GRID_ROWS - 1 - idx}))] *)
Definition restack (bs : list Block) : list Block :=
  imap (λ idx b, Block.withRow (GRID_ROWS - 1 - Z.of_nat idx) b) bs.

(** The gravity pass: the [for] loop over the columns. *)
Definition gravity (rem : list Block) : list Block :=
  c ← seqZ 0 GRID_COLS; restack (colBlocks c rem).

(** The success branch: everything done when [currentSum === targetSum]. *)
Definition clearEvent (u : Q) (s : State) : State * list Signal :=
  let sel := selectedIds s in
  let points := Z.of_nat (length sel) * 10 * level s in
  let s1 :=
    s |> setScore (λ sc, sc + points)
      |> setBlocks (λ prev, gravity (remaining sel prev))
      |> setSelectedIds (λ _, [])
      |> setTargetSum (generateTarget (level s) u) in
  let newClearedCount := blocksClearedInLevel s + Z.of_nat (length sel) in
  if BLOCKS_PER_LEVEL <=? newClearedCount then
    (s1 |> setLevel (λ l, l + 1)
        |> setBlocksClearedInLevel (newClearedCount - BLOCKS_PER_LEVEL)
        |> setShowLevelUp true,
     [LevelUpTimeout; Confetti])
  else
    (s1 |> setBlocksClearedInLevel newClearedCount, [Confetti]).

Definition sumCheck (u : Q) (s : State) : State * list Signal :=
  if bool_decide (selectedIds s = []) then (s, [])
  else if currentSum s =? targetSum s then clearEvent u s
  else if targetSum s <? currentSum s then (s |> setSelectedIds (λ _, []), [])
  else (s, []).

(** The clear event fires when the effect's trace contains the celebration
    call, which only the success branch issues. *)
Definition clearFires (u : Q) (s : State) : Prop := Confetti ∈ (sumCheck u s).2.

(** ** The scroll timer (l.291-312) *)

(** [0.5 + level * 0.15] *)
Definition speed (level : Z) : Q := (5 # 10) + inject_Z level * (15 # 100).

(** One firing of the interval.  The interval only exists while the game
    is started, not over and not paused. *)
Definition tick (dr : Z → Draw) (s : State) : State * list Signal :=
  if gameStarted s && negb (gameOver s) && negb (isPaused s) then
    let prev := scrollProgress s in
    if Qle_bool 100 (prev + speed (level s)) then
      (addNewRow dr s |> setScrollProgress 0%Q, [SpawnRow])
    else
      (s |> setScrollProgress (prev + speed (level s))%Q, [])
  else (s, []).

(** [n] successive firings; [dr k] is the generator output available to
    the [k]-th firing. *)
Fixpoint runTicks (n : nat) (dr : nat → Z → Draw) (s : State)
    : State * list Signal :=
  match n with
  | O => (s, [])
  | S n' =>
      let '(s1, t1) := tick (dr O) s in
      let '(s2, t2) := runTicks n' (λ k, dr (S k)) s1 in
      (s2, t1 ++ t2)
  end.

(** Number of [addNewRow] invocations in a trace. *)
Definition spawnCount (t : list Signal) : nat :=
  length (filter (λ x, x = SpawnRow) t).

(** ** Concrete states used as test inputs *)

Definition blk (i : string) (v r c : Z) : Block := Block.mk i v r c None.

(** A small board: column 0 holds three blocks, column 2 one. *)
Definition demoBlocks : list Block :=
  [ blk "a" 3 9 0; blk "b" 4 8 0; blk "c" 5 7 0; blk "d" 1 9 2 ].

Definition demoState (sel : list string) (target : Z) : State :=
  mkState demoBlocks target 0 sel false classic false 1 true 1 (1 # 2) 0 false.

(** A board whose top row is occupied, half-way to the next spawn. *)
Definition toppedState : State :=
  mkState [ blk "t" 3 0 0; blk "a" 3 9 0 ] 10 0 [] false classic false 1 true 1
    50%Q 0 false.

Definition constDraw (c : Z) : Draw := mkDraw "n" (3 # 10).

(** A late-game board for the level accumulator: 31 blocks of value 1 on
    the six bottom rows, all of them selected, target 31 at level 60 (in
    the range of [generateTarget 60]), 29 blocks already cleared in the
    level. *)
Definition idOf (i : nat) : string := String (Ascii.ascii_of_nat (48 + i)) "".

Definition onesBoard : list Block :=
  (λ i, blk (idOf i) 1 (GRID_ROWS - 1 - Z.of_nat i / GRID_COLS)
          (Z.of_nat i mod GRID_COLS)) <$> seq 0 31.

Definition bigClearState : State :=
  mkState onesBoard 31 0 (idOf <$> seq 0 31) false classic false 60 true 1
    0%Q 29 false.

(** ** Vocabulary of the statements *)

(** [a] may stand before [b] in a column sorted from bottom to top. *)
Definition rowGe (a b : Block) : Prop := Block.row b ≤ Block.row a.

(** [a] is strictly below [b]. *)
Definition rowGt (a b : Block) : Prop := Block.row b < Block.row a.

(** At most one block per grid cell. *)
Definition cellsUnique (bs : list Block) : Prop := NoDup (Block.cell <$> bs).

(** The gravity pass, keeping next to every block it pushes the block of
    [rem] that block was built from. *)
Definition gravityMoves (rem : list Block) : list (Block * Block) :=
  c ← seqZ 0 GRID_COLS;
  imap (λ idx b, (b, Block.withRow (GRID_ROWS - 1 - Z.of_nat idx) b))
    (colBlocks c rem).

(** The grid invariant carried along a game: one block per cell, and no
    block below the bottom row. *)
Definition gridInv (bs : list Block) : Prop :=
  cellsUnique bs ∧ Forall (λ b, Block.row b ≤ GRID_ROWS - 1) bs.

(** States of a game: [initGame] from any prior state of the component,
    followed by timer firings, direct row spawns, selection toggles, runs
    of the sum-check effect, clear events, and the buttons that pause,
    resume, change the start level or leave to the menu. *)
Inductive Reachable : State → Prop :=
| reach_init m dr u s0 : Reachable (initGame m dr u s0)
| reach_tick dr s : Reachable s → Reachable (tick dr s).1
| reach_spawn dr s : Reachable s → Reachable (addNewRow dr s)
| reach_toggle id s : Reachable s → Reachable (toggleBlock id s)
| reach_sumCheck u s : Reachable s → Reachable (sumCheck u s).1
| reach_clear u s : Reachable s → Reachable (clearEvent u s).1
| reach_pause b s : Reachable s → Reachable (setIsPaused b s)
| reach_startLevel f s : Reachable s → Reachable (setStartLevel f s)
| reach_hideLevelUp s : Reachable s → Reachable (setShowLevelUp false s)
| reach_menu s : Reachable s → Reachable (setGameStarted false s).

(** The scroll counter on its own, at a constant speed [v] and with every
    spawn succeeding: the progress after [n] firings and the number of
    spawns among them. *)
Fixpoint scrollSim (n : nat) (v prev : Q) : Q * nat :=
  match n with
  | O => (prev, O)
  | S n' =>
      if Qle_bool 100 (prev + v) then
        let '(p, k) := scrollSim n' v 0 in (p, S k)
      else scrollSim n' v (prev + v)
  end.

(** A fresh game at start level 1. *)
Definition freshGame : State :=
  initGame classic (λ _, constDraw) 0 (demoState [] 7).

(** ** The rest of the component *)

(** [getBlockColor] (l.47-61): the class string of a value, with the grey
    fallback of [colors[value] || ...] for a value that is not a key. *)
Definition fallbackColor : string := "bg-zinc-400 text-white border-zinc-600".

Definition getBlockColor (value : Z) : string :=
  match value with
  | 1 => "bg-blue-400 text-white border-blue-600"
  | 2 => "bg-emerald-400 text-white border-emerald-600"
  | 3 => "bg-amber-400 text-white border-amber-600"
  | 4 => "bg-orange-400 text-white border-orange-600"
  | 5 => "bg-rose-400 text-white border-rose-600"
  | 6 => "bg-purple-400 text-white border-purple-600"
  | 7 => "bg-pink-400 text-white border-pink-600"
  | 8 => "bg-indigo-400 text-white border-indigo-600"
  | 9 => "bg-cyan-400 text-white border-cyan-600"
  | 10 => "bg-violet-500 text-white border-violet-700"
  | _ => fallbackColor
  end.

(** The high-score effect (l.147-152): the value of [highScore] after the
    effect has run for a given [score]. *)
Definition updateHighScore (score highScore : Z) : Z :=
  if highScore <? score then score else highScore.

(** The high score after the effect has run for each score of a sequence. *)
Definition highScoreAfter (highScore : Z) (scores : list Z) : Z :=
  foldl (λ hs sc, updateHighScore sc hs) highScore scores.

(** The state of the component when it is mounted: the initial values of
    its [useState] calls (l.123-140). *)
Definition initialState : State :=
  mkState [] 10 0 [] false classic false 1 false 1 0%Q 0 false.

(** What the user and the runtime can do to the component: the buttons of
    the menu, of the game view and of its overlays, a click on a block, a
    firing of the scroll timer, a run of the sum-check effect, and the
    timeout that hides the level-up banner. *)
Inductive Event :=
| StartLevelDown                                          (* l.358 *)
| StartLevelUp                                            (* l.365 *)
| InitGame (m : GameMode) (dr : Z → Z → Draw) (u : Q)     (* l.375, l.385 *)
| Retry (dr : Z → Z → Draw) (u : Q)                       (* l.597 *)
| Tick (dr : Z → Draw)                                    (* l.299-306 *)
| ToggleBlock (id : string)                               (* l.514 *)
| SumCheck (u : Q)                                        (* l.230-288 *)
| PauseButton                                             (* l.429 *)
| Continue                                                (* l.559 *)
| ToMenu                                                  (* l.604, l.632 *)
| HideLevelUp.                                            (* l.272 *)

Definition handle (e : Event) (s : State) : State :=
  match e with
  | StartLevelDown => s |> setStartLevel (λ l, Z.max 1 (l - 1))
  | StartLevelUp => s |> setStartLevel (λ l, Z.min 10 (l + 1))
  | InitGame m dr u => initGame m dr u s
  | Retry dr u => initGame (mode s) dr u s
  | Tick dr => (tick dr s).1
  | ToggleBlock id => toggleBlock id s
  | SumCheck u => (sumCheck u s).1
  | PauseButton => s |> setIsPaused (negb (isPaused s))
  | Continue => s |> setIsPaused false
  | ToMenu => s |> setGameStarted false
  | HideLevelUp => s |> setShowLevelUp false
  end.

(** A result of [Math.random()]. *)
Definition unitRandom (u : Q) : Prop := (0 <= u)%Q ∧ (u < 1)%Q.

(** What an event can carry: random numbers lie in [[0, 1)], and a click
    reaches [toggleBlock] with the id of a block that is rendered. *)
Definition enabled (e : Event) (s : State) : Prop :=
  match e with
  | InitGame _ dr u | Retry dr u =>
      (∀ r c, unitRandom (drawRandom (dr r c))) ∧ unitRandom u
  | Tick dr => ∀ c, unitRandom (drawRandom (dr c))
  | ToggleBlock id => id ∈ Block.id <$> blocks s
  | SumCheck u => unitRandom u
  | _ => True
  end.

(** The states the mounted component can be in. *)
Inductive Played : State → Prop :=
| played_mount : Played initialState
| played_event e s : Played s → enabled e s → Played (handle e s).

(** A block lies inside the grid. *)
Definition inGrid (b : Block) : Prop :=
  0 ≤ Block.row b < GRID_ROWS ∧ 0 ≤ Block.col b < GRID_COLS.

(** Number of blocks of a column. *)
Definition colCount (c : Z) (bs : list Block) : nat :=
  length (filter (λ b, Block.col b = c) bs).

(** Columns are stacked from the bottom: the rows a grid column occupies
    are exactly its last [colCount] rows. *)
Definition compact (bs : list Block) : Prop :=
  ∀ c r, 0 ≤ c < GRID_COLS →
    (∃ b, b ∈ bs ∧ Block.col b = c ∧ Block.row b = r) ↔
    GRID_ROWS - Z.of_nat (colCount c bs) ≤ r ≤ GRID_ROWS - 1.

(** A well-formed board. *)
Definition gridOK (bs : list Block) : Prop :=
  cellsUnique bs ∧ Forall inGrid bs ∧ compact bs.

(** A block without its row. *)
Definition stripRow (b : Block) : string * Z * Z * option bool :=
  (Block.id b, Block.value b, Block.col b, Block.isNew b).

(** The ranges the numeric cells of the component stay in. *)
Definition numbersOK (s : State) : Prop :=
  1 ≤ startLevel s ≤ 10 ∧ 1 ≤ level s ∧
  0 ≤ score s ∧ (10 | score s) ∧
  5 ≤ targetSum s ≤ 14 + level s / 3 ∧
  0 ≤ blocksClearedInLevel s ∧
  (0 <= scrollProgress s)%Q ∧ (scrollProgress s < 100)%Q.

(** The selection holds distinct ids, each the id of a block on the
    board. *)
Definition selectionOK (s : State) : Prop :=
  NoDup (selectedIds s) ∧
  ∀ i, i ∈ selectedIds s → i ∈ Block.id <$> blocks s.

(** Every block carries a value the generator can produce. *)
Definition valuesOK (bs : list Block) : Prop :=
  Forall (λ b, 1 ≤ Block.value b ≤ 10) bs.

(** A first game of the mounted component, with distinct block ids, every
    value 4 and target 8. *)
Definition gridDraw (r c : Z) : Draw :=
  mkDraw (idOf (Z.to_nat (r * GRID_COLS + c))) (3 # 10).

Definition firstGame : State :=
  handle (InitGame classic gridDraw (3 # 10)) initialState.

(** The events that start a game. *)
Definition startsGame (e : Event) : bool :=
  match e with InitGame _ _ _ | Retry _ _ => true | _ => false end.

(** Two blocks of the first game selected: their values add up to the
    target. *)
Definition pairSelected : State :=
  handle (ToggleBlock "1") (handle (ToggleBlock "0") firstGame).

(** After that pair has been cleared, the next two blocks selected. *)
Definition secondPair : State :=
  handle (ToggleBlock "3")
    (handle (ToggleBlock "2") (handle (SumCheck (3 # 10)) pairSelected)).

(** [n] row spawns in a row; [dr k] is the generator output of the
    [k]-th. *)
Fixpoint spawns (n : nat) (dr : nat → Z → Draw) (s : State) : State :=
  match n with
  | O => s
  | S n' => spawns n' (λ k, dr (S k)) (addNewRow (dr O) s)
  end.

(** A fresh game after six spawns: every column is full. *)
Definition fullBoard : State := spawns 6 (λ _, constDraw) freshGame.


(** * Properties *)

(** Arithmetic goals that mention the grid constants. *)
Ltac grid :=
  unfold BLOCKS_PER_LEVEL, BLOCKS_PER_ROW, ROWS_PER_LEVEL,
         GRID_COLS, GRID_ROWS, INITIAL_ROWS in *; lia.

(** ** List facts used below *)

Section list_facts.
Context {A : Type} (P : A → Prop) `{!∀ x, Decision (P x)}.

Lemma filter_none (l : list A) : Forall (λ x, ¬ P x) l → filter P l = [].
Proof.
  induction 1 as [|x l Hx _ IH]; [done |]. by rewrite filter_cons_False.
Qed.

Lemma filter_all (l : list A) : Forall P l → filter P l = l.
Proof.
  induction 1 as [|x l Hx _ IH]; [done |].
  rewrite filter_cons_True by done. by f_equal.
Qed.
End list_facts.

(** ** Basic facts about the helpers *)

Lemma willBeGameOver_true (l : list Block) :
  willBeGameOver l = true ↔ ∃ b, b ∈ l ∧ Block.row b ≤ 0.
Proof.
  unfold willBeGameOver. induction l as [|x l IH]; simpl.
  - split; [done | intros (b & Hb & _); by apply elem_of_nil in Hb].
  - rewrite orb_true_iff, IH, Z.leb_le. split.
    + intros [Hx | (b & Hb & Hr)].
      * exists x. split; [left | done].
      * exists b. split; [by right | done].
    + intros (b & Hb & Hr). apply elem_of_cons in Hb as [-> | Hb]; [by left |].
      right. by exists b.
Qed.

Lemma willBeGameOver_false (l : list Block) :
  willBeGameOver l = false ↔ ¬ ∃ b, b ∈ l ∧ Block.row b ≤ 0.
Proof.
  rewrite <- willBeGameOver_true. destruct (willBeGameOver l); split; done.
Qed.

Lemma length_newRow (dr : Z → Draw) : length (newRow dr) = Z.to_nat GRID_COLS.
Proof. unfold newRow. by rewrite length_fmap, length_seqZ. Qed.

Lemma newRow_spec (dr : Z → Draw) (b : Block) :
  b ∈ newRow dr →
  Block.isNew b = Some true ∧ Block.row b = GRID_ROWS - 1 ∧
  0 ≤ Block.col b < GRID_COLS.
Proof.
  unfold newRow. intros (c & -> & Hc)%list_elem_of_fmap.
  apply elem_of_seqZ in Hc. simpl. repeat split; lia.
Qed.

Lemma Qfloor_nonneg (q : Q) : (0 <= q)%Q → 0 ≤ Qfloor q.
Proof. intros H. change 0 with (Qfloor 0). by apply Qfloor_resp_le. Qed.

(** Every target the generator can produce is at least 5 (for the levels
    the game uses, which are positive). *)
Lemma generateTarget_ge_5 (lvl : Z) (u : Q) :
  0 ≤ lvl → (0 <= u)%Q → 5 ≤ generateTarget lvl u.
Proof.
  intros Hl Hu. unfold generateTarget.
  assert (0 ≤ Qfloor (u * inject_Z (10 + lvl / 3))); [| lia].
  apply Qfloor_nonneg, Qmult_le_0_compat; [done |].
  change 0%Q with (inject_Z 0). rewrite <- Zle_Qle.
  pose proof (Z.div_pos lvl 3). lia.
Qed.

(** A selection none of whose ids names a block sums to nothing. *)
Lemma currentSum_stale (s : State) :
  (∀ b, b ∈ blocks s → Block.id b ∉ selectedIds s) → currentSum s = 0.
Proof.
  intros H. unfold currentSum.
  rewrite filter_none; [done |]. apply Forall_forall. auto.
Qed.

(** ** Sum resolution *)

Lemma clearEvent_trace (u : Q) (s : State) : Confetti ∈ (clearEvent u s).2.
Proof.
  unfold clearEvent. destruct (BLOCKS_PER_LEVEL <=? _); simpl.
  - apply elem_of_cons. right. apply list_elem_of_singleton. done.
  - by apply list_elem_of_singleton.
Qed.

Lemma sumCheck_eq (u : Q) (s : State) :
  selectedIds s ≠ [] → currentSum s = targetSum s →
  sumCheck u s = clearEvent u s.
Proof.
  intros Hsel Heq. unfold sumCheck.
  rewrite bool_decide_eq_false_2 by done. by rewrite (proj2 (Z.eqb_eq _ _) Heq).
Qed.

Lemma sumCheck_gt (u : Q) (s : State) :
  selectedIds s ≠ [] → targetSum s < currentSum s →
  sumCheck u s = (setSelectedIds (λ _, []) s, []).
Proof.
  intros Hsel Hgt. unfold sumCheck.
  rewrite bool_decide_eq_false_2 by done.
  rewrite (proj2 (Z.eqb_neq _ _)) by lia. by rewrite (proj2 (Z.ltb_lt _ _) Hgt).
Qed.

Lemma sumCheck_lt (u : Q) (s : State) :
  currentSum s < targetSum s → sumCheck u s = (s, []).
Proof.
  intros Hlt. unfold sumCheck. case_bool_decide; [done |].
  rewrite (proj2 (Z.eqb_neq _ _)) by lia. by rewrite (proj2 (Z.ltb_ge _ _)) by lia.
Qed.

(** C1.  In a state that is neither over nor paused and whose selection is
    non-empty, the sum check fires the clear event exactly when the sum of
    the selected blocks' values equals the target (and then performs the
    clear event); a larger sum empties the selection and leaves blocks,
    score, target, level and the level accumulator alone; a smaller sum
    leaves the whole state as it is. *)
Theorem sum_resolution (u : Q) (s : State) :
  gameOver s = false → isPaused s = false → selectedIds s ≠ [] →
  (clearFires u s ↔ currentSum s = targetSum s) ∧
  (currentSum s = targetSum s → sumCheck u s = clearEvent u s) ∧
  (targetSum s < currentSum s →
     let s' := (sumCheck u s).1 in
     selectedIds s' = [] ∧ blocks s' = blocks s ∧ score s' = score s ∧
     targetSum s' = targetSum s ∧ level s' = level s ∧
     blocksClearedInLevel s' = blocksClearedInLevel s) ∧
  (currentSum s < targetSum s →
     (sumCheck u s).1 = s ∧ selectedIds (sumCheck u s).1 = selectedIds s).
Proof.
  intros _ _ Hsel. unfold clearFires. repeat split.
  - intros Hfire. destruct (Z.lt_trichotomy (currentSum s) (targetSum s))
      as [Hlt | [Heq | Hgt]]; [| done |]; exfalso.
    + rewrite sumCheck_lt in Hfire by done. by apply elem_of_nil in Hfire.
    + rewrite sumCheck_gt in Hfire by done. by apply elem_of_nil in Hfire.
  - intros Heq. rewrite sumCheck_eq by done. apply clearEvent_trace.
  - by apply sumCheck_eq.
  - by rewrite sumCheck_gt.
  - by rewrite sumCheck_gt.
  - by rewrite sumCheck_gt.
  - by rewrite sumCheck_gt.
  - by rewrite sumCheck_gt.
  - by rewrite sumCheck_gt.
  - by rewrite sumCheck_lt.
  - by rewrite sumCheck_lt.
Qed.

Lemma sum_resolution_witness :
  (clearFires 0 (demoState ["a"; "b"] 7) ↔
     currentSum (demoState ["a"; "b"] 7) = targetSum (demoState ["a"; "b"] 7)) ∧
  currentSum (demoState ["a"; "b"] 7) = 7.
Proof.
  split; [| reflexivity].
  apply (sum_resolution 0 (demoState ["a"; "b"] 7)); [reflexivity .. | discriminate].
Defined.

(** ** Row spawn *)

Lemma addNewRow_over (dr : Z → Draw) (s : State) :
  willBeGameOver (blocks s) = true →
  addNewRow dr s = s |> setScrollProgress 0%Q.
Proof.
  intros H. unfold addNewRow, setBlocks. cbv beta zeta. rewrite H.
  by destruct s.
Qed.

Lemma addNewRow_spawn (dr : Z → Draw) (s : State) :
  willBeGameOver (blocks s) = false →
  addNewRow dr s =
    s |> setBlocks (λ prev, pushedBlocks prev ++ newRow dr)
      |> setScrollProgress 0%Q.
Proof.
  intros H. unfold addNewRow, setBlocks. cbv beta zeta. by rewrite H.
Qed.

Lemma addNewRow_gameOver (dr : Z → Draw) (s : State) :
  gameOver (addNewRow dr s) = gameOver s.
Proof. reflexivity. Qed.

(** C2.  What [addNewRow] does at a board whose top row is occupied, and
    on every state.  On [toppedState] a block sits at row 0 and the game is
    not over; the call keeps the blocks and leaves [gameOver = false]: the
    flag is never written.  In general [gameOver] keeps its value; the
    block list is kept exactly when some block has [row <= 0]; otherwise
    the existing blocks come first, each with its row decreased by one and
    nothing else changed, followed by exactly [GRID_COLS] new blocks with
    [isNew = true] at [row = GRID_ROWS - 1]. *)
Theorem addNewRow_misses_game_over :
  ((∃ b, b ∈ blocks toppedState ∧ Block.row b ≤ 0) ∧
   gameOver toppedState = false ∧
   blocks (addNewRow constDraw toppedState) = blocks toppedState ∧
   gameOver (addNewRow constDraw toppedState) = false) ∧
  ∀ (dr : Z → Draw) (s : State),
    let s' := addNewRow dr s in
    let new := drop (length (blocks s)) (blocks s') in
    gameOver s' = gameOver s ∧
    (blocks s' = blocks s ↔ ∃ b, b ∈ blocks s ∧ Block.row b ≤ 0) ∧
    ((¬ ∃ b, b ∈ blocks s ∧ Block.row b ≤ 0) →
       take (length (blocks s)) (blocks s') =
         (λ b, Block.withRow (Block.row b - 1) b) <$> blocks s ∧
       length new = Z.to_nat GRID_COLS ∧
       Forall (λ b, Block.isNew b = Some true ∧ Block.row b = GRID_ROWS - 1) new).
Proof.
  split.
  { split; [| split; [reflexivity | split; reflexivity]].
    exists (blk "t" 3 0 0). split; [apply list_elem_of_here | done]. }
  intros dr s. cbv zeta. split; [reflexivity |]. split.
  - rewrite <- willBeGameOver_true. split.
    + intros Hb. destruct (willBeGameOver (blocks s)) eqn:E; [done |].
      rewrite addNewRow_spawn in Hb by done. simpl in Hb.
      apply (f_equal length) in Hb.
      rewrite length_app, length_newRow in Hb. unfold pushedBlocks in Hb.
      rewrite length_fmap in Hb. unfold GRID_COLS in Hb. lia.
    + intros H. by rewrite addNewRow_over.
  - intros H%willBeGameOver_false. rewrite addNewRow_spawn by done. simpl.
    replace (length (blocks s)) with (length (pushedBlocks (blocks s)))
      by apply length_fmap.
    rewrite take_app_length, drop_app_length.
    split; [done |]. split; [apply length_newRow |].
    apply Forall_forall. intros b Hb%newRow_spec. tauto.
Qed.

(** The branch of [addNewRow] for an occupied top row, at a concrete
    board: a block sits at row 0 and the scroll progress is 50; after the
    call the blocks are the same and the scroll progress is 0, not 50. *)
Lemma game_over_resets_scroll_example :
  (∃ b, b ∈ blocks toppedState ∧ Block.row b ≤ 0) ∧
  blocks (addNewRow constDraw toppedState) = blocks toppedState ∧
  ¬ (scrollProgress (addNewRow constDraw toppedState) ==
       scrollProgress toppedState)%Q.
Proof.
  split; [| split; [reflexivity | done]].
  exists (blk "t" 3 0 0). split; [apply list_elem_of_here | done].
Qed.

(** C7 (amended).  When some block has [row <= 0], [addNewRow] leaves the
    blocks unchanged and sets [scrollProgress] to 0: the reset at the end
    of [addNewRow] is outside the game-over test.  Every cell other than
    [scrollProgress] and [gameOver] keeps its value; nothing is stated
    about [gameOver]. *)
Theorem game_over_branch_frame (dr : Z → Draw) (s : State) :
  (∃ b, b ∈ blocks s ∧ Block.row b ≤ 0) →
  let s' := addNewRow dr s in
  blocks s' = blocks s ∧ scrollProgress s' = 0%Q ∧
  ∀ g, setGameOver g s' = s |> setScrollProgress 0%Q |> setGameOver g.
Proof.
  intros H%willBeGameOver_true. cbv zeta. by rewrite addNewRow_over.
Qed.

Lemma game_over_branch_frame_witness :
  blocks (addNewRow constDraw toppedState) = blocks toppedState ∧
  scrollProgress (addNewRow constDraw toppedState) = 0%Q.
Proof.
  assert (∃ b, b ∈ blocks toppedState ∧ Block.row b ≤ 0) as H.
  { exists (blk "t" 3 0 0). split; [apply list_elem_of_here | done]. }
  destruct (game_over_branch_frame constDraw toppedState H) as (H1 & H2 & _).
  split; [exact H1 | exact H2].
Defined.

(** ** Selection *)

Lemma toggleBlock_active (id : string) (s : State) :
  gameOver s = false → isPaused s = false →
  toggleBlock id s =
    s |> setSelectedIds (λ prev,
           if bool_decide (id ∈ prev) then filter (λ i, i ≠ id) prev
           else prev ++ [id]).
Proof. intros Hg Hp. unfold toggleBlock. by rewrite Hg, Hp. Qed.

(** Toggling an id that names no block, on the demo board with an empty
    selection: the id is added to the selection, so the state changes. *)
Lemma toggle_unknown_id_example :
  gameOver (demoState [] 7) = false ∧ isPaused (demoState [] 7) = false ∧
  (∀ b, b ∈ blocks (demoState [] 7) → Block.id b ≠ "ghost") ∧
  selectedIds (toggleBlock "ghost" (demoState [] 7)) = ["ghost"] ∧
  toggleBlock "ghost" (demoState [] 7) ≠ demoState [] 7.
Proof.
  split; [done |]. split; [done |]. split; [| split; [done | discriminate]].
  intros b Hb. simpl in Hb. unfold demoBlocks in Hb.
  repeat (apply elem_of_cons in Hb as [-> | Hb]; [discriminate |]).
  by apply elem_of_nil in Hb.
Qed.

(** C6 (amended).  In a state that is neither over nor paused,
    [toggleBlock id] does not look at the blocks: also for an id that
    matches no block it flips the membership of [id] in [selectedIds]
    (appended at the end when absent, removed when present) and leaves
    every other field unchanged. *)
Theorem toggle_unknown_id (id : string) (s : State) :
  gameOver s = false → isPaused s = false →
  (∀ b, b ∈ blocks s → Block.id b ≠ id) →
  let s' := toggleBlock id s in
  (id ∉ selectedIds s → selectedIds s' = selectedIds s ++ [id]) ∧
  (id ∈ selectedIds s → selectedIds s' = filter (λ i, i ≠ id) (selectedIds s)) ∧
  (id ∈ selectedIds s' ↔ id ∉ selectedIds s) ∧
  s' = setSelectedIds (λ _, selectedIds s') s.
Proof.
  intros Hg Hp _. cbv zeta. rewrite toggleBlock_active by done.
  repeat split; simpl; case_bool_decide as Hin; try tauto.
  - intros []%list_elem_of_filter. tauto.
  - rewrite elem_of_app, list_elem_of_singleton. tauto.
Qed.

Lemma toggle_unknown_id_witness :
  selectedIds (toggleBlock "ghost" (demoState ["a"] 7)) = ["a"; "ghost"].
Proof.
  assert (∀ b, b ∈ blocks (demoState ["a"] 7) → Block.id b ≠ "ghost") as Hb.
  { intros b Hb. simpl in Hb. unfold demoBlocks in Hb.
    repeat (apply elem_of_cons in Hb as [-> | Hb]; [discriminate |]).
    by apply elem_of_nil in Hb. }
  apply (toggle_unknown_id "ghost" (demoState ["a"] 7) eq_refl eq_refl Hb).
  simpl. intros [H | H]%elem_of_cons; [discriminate | by apply elem_of_nil in H].
Defined.

(** C10.  Every target the generator produces is at least 5; and when the
    target is at least 5 and no selected id names a block, the sum check
    computes a sum of 0 and does nothing: no clear event, no selection
    reset, the whole state (blocks, score, target, selection) as before. *)
Theorem stale_selection_never_clears (u : Q) (s : State) :
  5 ≤ targetSum s → selectedIds s ≠ [] →
  (∀ id b, id ∈ selectedIds s → b ∈ blocks s → Block.id b ≠ id) →
  (∀ lvl v, 0 ≤ lvl → (0 <= v)%Q → 5 ≤ generateTarget lvl v) ∧
  currentSum s = 0 ∧
  sumCheck u s = (s, []) ∧ ¬ clearFires u s.
Proof.
  intros Ht Hsel Hstale.
  assert (currentSum s = 0) as H0.
  { apply currentSum_stale. intros b Hb Hin. by apply (Hstale _ b Hin). }
  assert (sumCheck u s = (s, [])) as Hs by (apply sumCheck_lt; lia).
  split; [apply generateTarget_ge_5 |]. split; [done |]. split; [done |].
  unfold clearFires. rewrite Hs. apply not_elem_of_nil.
Qed.

Lemma stale_selection_never_clears_witness :
  sumCheck 0 (demoState ["ghost"] 7) = (demoState ["ghost"] 7, []).
Proof.
  apply (stale_selection_never_clears 0 (demoState ["ghost"] 7)).
  - simpl. lia.
  - discriminate.
  - intros id b Hid Hb. simpl in Hid, Hb. unfold demoBlocks in Hb.
    apply list_elem_of_singleton in Hid as ->.
    repeat (apply elem_of_cons in Hb as [-> | Hb]; [discriminate |]).
    by apply elem_of_nil in Hb.
Defined.

(** ** Level progression *)

Lemma clearEvent_level_below (u : Q) (s : State) :
  blocksClearedInLevel s + Z.of_nat (length (selectedIds s)) < BLOCKS_PER_LEVEL →
  level (clearEvent u s).1 = level s ∧
  blocksClearedInLevel (clearEvent u s).1 =
    blocksClearedInLevel s + Z.of_nat (length (selectedIds s)).
Proof.
  intros H. unfold clearEvent. by rewrite (proj2 (Z.leb_gt _ _) H).
Qed.

Lemma clearEvent_level_reached (u : Q) (s : State) :
  BLOCKS_PER_LEVEL ≤ blocksClearedInLevel s + Z.of_nat (length (selectedIds s)) →
  level (clearEvent u s).1 = level s + 1 ∧
  blocksClearedInLevel (clearEvent u s).1 =
    blocksClearedInLevel s + Z.of_nat (length (selectedIds s)) - BLOCKS_PER_LEVEL.
Proof.
  intros H. unfold clearEvent. by rewrite (proj2 (Z.leb_le _ _) H).
Qed.

(** When the selected ids are distinct and each names exactly one block,
    the clear removes as many blocks as there are selected ids. *)
Lemma remaining_length (sel : list string) (bs : list Block) :
  NoDup sel → NoDup (Block.id <$> bs) → (∀ i, i ∈ sel → i ∈ Block.id <$> bs) →
  length bs = (length (remaining sel bs) + length sel)%nat.
Proof.
  intros Hsel Hids Hin. unfold remaining.
  pose proof (filter_app_complement (λ b, Block.id b ∈ sel) bs) as Hperm.
  apply Permutation_length in Hperm. rewrite length_app in Hperm.
  assert (length (filter (λ b, Block.id b ∈ sel) bs) = length sel) as Hn.
  { rewrite <- (length_fmap Block.id). apply Permutation_length.
    apply NoDup_Permutation; [| done |].
    - apply (sublist_NoDup _ _ Hids), fmap_sublist, sublist_filter.
    - intros i. rewrite list_elem_of_fmap. split.
      + intros (b & -> & Hb). by apply list_elem_of_filter in Hb as [? _].
      + intros Hi. destruct (proj1 (list_elem_of_fmap _ _ _) (Hin i Hi))
          as (b & -> & Hb).
        exists b. split; [done |]. by apply list_elem_of_filter. }
  lia.
Qed.

(** A clear event whose accumulated count crosses two thresholds: on the
    late-game board the sum check fires a clear of 31 blocks with 29
    already counted, so the count reaches 60 = 2 * 30; the level goes from
    60 to 61, not 62, and the accumulator keeps 30. *)
Lemma double_threshold_example :
  selectedIds bigClearState ≠ [] ∧
  currentSum bigClearState = targetSum bigClearState ∧
  2 * BLOCKS_PER_LEVEL ≤
    blocksClearedInLevel bigClearState +
    Z.of_nat (length (selectedIds bigClearState)) ∧
  level (sumCheck 0 bigClearState).1 = level bigClearState + 1 ∧
  level (sumCheck 0 bigClearState).1 ≠ level bigClearState + 2 ∧
  blocksClearedInLevel (sumCheck 0 bigClearState).1 = 30.
Proof. by vm_compute. Qed.

(** C4 (amended).  A clear event with [n] selected ids advances the
    accumulator by [n], whatever the selection and the board.  If the new
    count is below [BLOCKS_PER_LEVEL = 30] the level is unchanged; if it
    reaches or exceeds 30 the level increments by exactly one and the
    accumulator keeps the new count minus 30.  One clear never increments
    the level twice: when the new count reaches 60 the level still goes up
    by one, the accumulator stays at 30 or more, and any clear event from a
    state with such an accumulator increments the level again.  When the
    selected ids are distinct and each names exactly one block, [n] is the
    number of blocks the clear removes. *)
Theorem level_threshold_carry (u : Q) (s : State) :
  let n := Z.of_nat (length (selectedIds s)) in
  let s' := (clearEvent u s).1 in
  let newClearedCount := blocksClearedInLevel s + n in
  BLOCKS_PER_LEVEL = GRID_COLS * ROWS_PER_LEVEL ∧ BLOCKS_PER_LEVEL = 30 ∧
  (newClearedCount < BLOCKS_PER_LEVEL →
     level s' = level s ∧ blocksClearedInLevel s' = newClearedCount) ∧
  (BLOCKS_PER_LEVEL ≤ newClearedCount →
     level s' = level s + 1 ∧
     blocksClearedInLevel s' = newClearedCount - BLOCKS_PER_LEVEL) ∧
  (2 * BLOCKS_PER_LEVEL ≤ newClearedCount →
     level s' = level s + 1 ∧ BLOCKS_PER_LEVEL ≤ blocksClearedInLevel s' ∧
     ∀ u2 s2, blocksClearedInLevel s2 = blocksClearedInLevel s' →
       level (clearEvent u2 s2).1 = level s2 + 1) ∧
  (NoDup (selectedIds s) → NoDup (Block.id <$> blocks s) →
   (∀ i, i ∈ selectedIds s → i ∈ Block.id <$> blocks s) →
   Z.of_nat (length (blocks s)) =
     Z.of_nat (length (remaining (selectedIds s) (blocks s))) + n).
Proof.
  cbv zeta. split; [done |]. split; [done |].
  split; [apply clearEvent_level_below |].
  split; [apply clearEvent_level_reached |]. split.
  - intros H2.
    assert (BLOCKS_PER_LEVEL = 30) as H30 by done.
    destruct (clearEvent_level_reached u s) as [Hl Hc]; [lia |].
    split; [done |]. split; [lia |].
    intros u2 s2 Hacc. apply clearEvent_level_reached. lia.
  - intros Hsel Hids Hin. rewrite (remaining_length _ _ Hsel Hids Hin). lia.
Qed.

Lemma level_threshold_carry_witness :
  (level (clearEvent 0 bigClearState).1 = level bigClearState + 1 ∧
   blocksClearedInLevel (clearEvent 0 bigClearState).1 = 30) ∧
  Z.of_nat (length (blocks bigClearState)) =
    Z.of_nat (length (remaining (selectedIds bigClearState)
                        (blocks bigClearState))) + 31.
Proof.
  destruct (level_threshold_carry 0 bigClearState)
    as (_ & _ & _ & Hreach & _ & Hcount).
  split; [apply Hreach; by vm_compute |].
  apply Hcount.
  - apply (bool_decide_unpack _); vm_compute; exact I.
  - apply (bool_decide_unpack _); vm_compute; exact I.
  - intros i Hi. replace (Block.id <$> blocks bigClearState)
      with (selectedIds bigClearState) by (by vm_compute). done.
Defined.

(** ** The stable sort by descending row *)

Lemma insertByRowDesc_perm (b : Block) (l : list Block) :
  insertByRowDesc b l ≡ₚ b :: l.
Proof.
  induction l as [|x l IH]; simpl; [done |].
  destruct (Block.row b <? Block.row x); [| done].
  rewrite IH. apply perm_swap.
Qed.

Lemma sortByRowDesc_perm (l : list Block) : sortByRowDesc l ≡ₚ l.
Proof.
  induction l as [|x l IH]; simpl; [done |].
  rewrite insertByRowDesc_perm. by f_equiv.
Qed.

Lemma length_sortByRowDesc (l : list Block) :
  length (sortByRowDesc l) = length l.
Proof. apply Permutation_length, sortByRowDesc_perm. Qed.

Lemma insertByRowDesc_sorted (b : Block) (l : list Block) :
  StronglySorted rowGe l → StronglySorted rowGe (insertByRowDesc b l).
Proof.
  induction 1 as [|x l Hs IH Hx]; simpl.
  - repeat constructor.
  - destruct (Z.ltb_spec (Block.row b) (Block.row x)) as [Hlt | Hge].
    + constructor; [done |]. rewrite insertByRowDesc_perm.
      constructor; [unfold rowGe; lia | done].
    + constructor; [by constructor |]. constructor; [done |].
      eapply Forall_impl; [exact Hx |]. unfold rowGe. intros y Hy. lia.
Qed.

Lemma sortByRowDesc_sorted (l : list Block) :
  StronglySorted rowGe (sortByRowDesc l).
Proof.
  induction l as [|x l IH]; simpl; [constructor |].
  by apply insertByRowDesc_sorted.
Qed.

(** A list that already descends strictly is left as it is. *)
Lemma sortByRowDesc_strict (l : list Block) :
  StronglySorted rowGt l → sortByRowDesc l = l.
Proof.
  induction 1 as [|x l Hs IH Hx]; simpl; [done |].
  rewrite IH. destruct l as [|y l]; [done |]. simpl.
  apply Forall_cons in Hx as [Hy _]. unfold rowGt in Hy.
  by rewrite (proj2 (Z.ltb_ge _ _)) by lia.
Qed.

Lemma StronglySorted_lookup {A} (R : A → A → Prop) (l : list A) i j x y :
  StronglySorted R l → l !! i = Some x → l !! j = Some y → (i < j)%nat →
  R x y.
Proof.
  intros Hs. revert i j. induction Hs as [|z l Hs IH Hz]; intros i j Hi Hj Hij.
  - by rewrite lookup_nil in Hi.
  - destruct j as [|j]; [lia |]. simpl in Hj. destruct i as [|i]; simpl in Hi.
    + injection Hi as ->. rewrite Forall_forall in Hz.
      apply Hz. by eapply list_elem_of_lookup_2.
    + apply (IH i j); [done | done | lia].
Qed.

(** ** Re-stacking a column *)

Lemma restack_lookup (l : list Block) (i : nat) :
  restack l !! i = Block.withRow (GRID_ROWS - 1 - Z.of_nat i) <$> l !! i.
Proof. unfold restack. by rewrite list_lookup_imap. Qed.

Lemma length_restack (l : list Block) : length (restack l) = length l.
Proof. apply length_imap. Qed.

Lemma elem_of_restack (l : list Block) (b : Block) :
  b ∈ restack l ↔
  ∃ i y, l !! i = Some y ∧ b = Block.withRow (GRID_ROWS - 1 - Z.of_nat i) y.
Proof.
  unfold restack. rewrite elem_of_lookup_imap. split.
  - intros (i & y & -> & Hy). by exists i, y.
  - intros (i & y & Hy & ->). by exists i, y.
Qed.

Lemma imap_strict (f : nat → Block → Block) (l : list Block) :
  (∀ i j x y, (i < j)%nat → rowGt (f i x) (f j y)) →
  StronglySorted rowGt (imap f l).
Proof.
  revert f. induction l as [|x l IH]; intros f Hf; [constructor |].
  rewrite imap_cons. constructor.
  - apply IH. intros i j a b Hij. apply Hf. lia.
  - apply Forall_forall. intros b (i & y & -> & _)%elem_of_lookup_imap.
    apply Hf. lia.
Qed.

Lemma restack_strict (l : list Block) : StronglySorted rowGt (restack l).
Proof. apply imap_strict. intros i j x y Hij. unfold rowGt. simpl. lia. Qed.

Lemma restack_restack (l : list Block) : restack (restack l) = restack l.
Proof.
  apply list_eq. intros i. rewrite !restack_lookup.
  by destruct (l !! i).
Qed.

Lemma colBlocks_perm (c : Z) (rem : list Block) :
  colBlocks c rem ≡ₚ filter (λ b, Block.col b = c) rem.
Proof. apply sortByRowDesc_perm. Qed.

Lemma colBlocks_col (c : Z) (rem : list Block) (b : Block) :
  b ∈ colBlocks c rem → Block.col b = c.
Proof. rewrite colBlocks_perm. by intros [? _]%list_elem_of_filter. Qed.

Lemma restack_colBlocks_col (c : Z) (rem : list Block) (b : Block) :
  b ∈ restack (colBlocks c rem) → Block.col b = c.
Proof.
  intros (i & y & Hy & ->)%elem_of_restack. simpl.
  eapply colBlocks_col, list_elem_of_lookup_2, Hy.
Qed.

(** ** Columns of a column-wise concatenation *)

Section columns.
Variable f : Z → list Block.
Hypothesis f_col : ∀ c b, b ∈ f c → Block.col b = c.

Lemma filter_col_bind_out (cs : list Z) (c : Z) :
  c ∉ cs → filter (λ b, Block.col b = c) (cs ≫= f) = [].
Proof.
  intros Hc. apply filter_none, Forall_forall.
  intros b (c' & Hb & Hc')%list_elem_of_bind Hcol.
  apply f_col in Hb. congruence.
Qed.

Lemma filter_col_bind_in (cs : list Z) (c : Z) :
  NoDup cs → c ∈ cs → filter (λ b, Block.col b = c) (cs ≫= f) = f c.
Proof.
  induction 1 as [|x cs Hx Hnd IH]; intros Hc; [by apply elem_of_nil in Hc |].
  rewrite bind_cons, filter_app.
  destruct (decide (c = x)) as [-> | Hne].
  - rewrite filter_col_bind_out by done. rewrite app_nil_r.
    apply filter_all, Forall_forall. intros b. apply f_col.
  - apply elem_of_cons in Hc as [Hc | Hc]; [done |].
    rewrite IH by done. rewrite filter_none; [done |].
    apply Forall_forall. intros b Hb%f_col. congruence.
Qed.
End columns.

(** ** Gravity *)

Lemma elem_of_gravity (rem : list Block) (b : Block) :
  b ∈ gravity rem ↔
  ∃ c i y, 0 ≤ c < GRID_COLS ∧ colBlocks c rem !! i = Some y ∧
           b = Block.withRow (GRID_ROWS - 1 - Z.of_nat i) y.
Proof.
  unfold gravity. rewrite list_elem_of_bind. split.
  - intros (c & (i & y & Hy & ->)%elem_of_restack & Hc%elem_of_seqZ).
    exists c, i, y. split; [grid | done].
  - intros (c & i & y & Hc & Hy & ->). exists c. split.
    + apply elem_of_restack. by exists i, y.
    + apply elem_of_seqZ. lia.
Qed.

Lemma filter_col_gravity (c : Z) (rem : list Block) :
  0 ≤ c < GRID_COLS →
  filter (λ b, Block.col b = c) (gravity rem) = restack (colBlocks c rem).
Proof.
  intros Hc. unfold gravity.
  apply (filter_col_bind_in (λ c, restack (colBlocks c rem))).
  - intros c' b. apply restack_colBlocks_col.
  - apply NoDup_seqZ.
  - apply elem_of_seqZ. lia.
Qed.

Lemma colBlocks_gravity (c : Z) (rem : list Block) :
  0 ≤ c < GRID_COLS →
  colBlocks c (gravity rem) = restack (colBlocks c rem).
Proof.
  intros Hc. unfold colBlocks at 1. rewrite filter_col_gravity by done.
  apply sortByRowDesc_strict, restack_strict.
Qed.

(** C9.  The gravity pass is idempotent on every list of blocks: a second
    pass, with no removal in between, returns the list the first pass
    returned, so no block's row (nor anything else) changes. *)
Theorem gravity_idempotent (bs : list Block) :
  gravity (gravity bs) = gravity bs.
Proof.
  unfold gravity at 1 3. apply Forall_bind_ext, Forall_forall.
  intros c Hc%elem_of_seqZ.
  rewrite colBlocks_gravity by grid.
  apply restack_restack.
Qed.

Lemma clearEvent_blocks (u : Q) (s : State) :
  blocks (clearEvent u s).1 = gravity (remaining (selectedIds s) (blocks s)).
Proof. unfold clearEvent. by destruct (BLOCKS_PER_LEVEL <=? _). Qed.

(** The rows of column [c] after gravity: as many as the column holds,
    counted down from the bottom row. *)
Lemma gravity_rows (rem : list Block) (c r : Z) :
  0 ≤ c < GRID_COLS →
  (∃ b, b ∈ gravity rem ∧ Block.col b = c ∧ Block.row b = r) ↔
  GRID_ROWS - Z.of_nat (length (filter (λ b, Block.col b = c) rem)) ≤ r
    ≤ GRID_ROWS - 1.
Proof.
  intros Hc. rewrite <- (Permutation_length (colBlocks_perm c rem)). split.
  - intros (b & (c' & i & y & Hc' & Hy & ->)%elem_of_gravity & Hcol & <-).
    simpl in *. assert (c' = c) as ->.
    { rewrite <- Hcol. symmetry.
      eapply colBlocks_col, list_elem_of_lookup_2, Hy. }
    apply lookup_lt_Some in Hy. lia.
  - intros Hr.
    destruct (lookup_lt_is_Some_2 (colBlocks c rem) (Z.to_nat (GRID_ROWS - 1 - r)))
      as [y Hy]; [lia |].
    exists (Block.withRow r y). split; [| split; [| done]].
    + apply elem_of_gravity. exists c, (Z.to_nat (GRID_ROWS - 1 - r)), y.
      split; [done |]. split; [done |]. f_equal. lia.
    + simpl. eapply colBlocks_col, list_elem_of_lookup_2, Hy.
Qed.

(** *** The pairing of survivors with the blocks gravity builds *)

Lemma fmap_bind {A B C} (g : B → C) (f : A → list B) (l : list A) :
  g <$> (l ≫= f) = l ≫= (λ x, g <$> f x).
Proof.
  induction l as [|x l IH]; [done |].
  by rewrite !bind_cons, fmap_app, IH.
Qed.

Lemma gravityMoves_snd (rem : list Block) :
  (gravityMoves rem).*2 = gravity rem.
Proof.
  unfold gravityMoves, gravity. rewrite fmap_bind.
  apply list_bind_ext; [| done]. intros c. by rewrite fmap_imap.
Qed.

Lemma gravityMoves_fst (rem : list Block) :
  (gravityMoves rem).*1 = seqZ 0 GRID_COLS ≫= (λ c, colBlocks c rem).
Proof.
  unfold gravityMoves. rewrite fmap_bind.
  apply list_bind_ext; [| done]. intros c. rewrite fmap_imap.
  rewrite (imap_ext _ (λ _ b, b)) by done.
  by rewrite (imap_const (λ b : Block, b)), list_fmap_id.
Qed.

Lemma elem_of_gravityMoves (rem : list Block) (a a' : Block) :
  (a, a') ∈ gravityMoves rem ↔
  ∃ c i, 0 ≤ c < GRID_COLS ∧ colBlocks c rem !! i = Some a ∧
         a' = Block.withRow (GRID_ROWS - 1 - Z.of_nat i) a.
Proof.
  unfold gravityMoves. rewrite list_elem_of_bind. split.
  - intros (c & (i & y & Heq & Hy)%elem_of_lookup_imap & Hc%elem_of_seqZ).
    injection Heq as -> ->. exists c, i. split; [grid | done].
  - intros (c & i & Hc & Hy & ->). exists c. split.
    + apply elem_of_lookup_imap. by exists i, a.
    + apply elem_of_seqZ. lia.
Qed.

Lemma filter_disjoint_perm {A} (P Q : A → Prop)
    `{!∀ x, Decision (P x), !∀ x, Decision (Q x)} (l : list A) :
  (∀ x, P x → Q x → False) →
  filter P l ++ filter Q l ≡ₚ filter (λ x, P x ∨ Q x) l.
Proof.
  intros Hdisj. induction l as [|x l IH]; [done |].
  rewrite !filter_cons.
  destruct (decide (P x)) as [HP | HP], (decide (Q x)) as [HQ | HQ].
  - destruct (Hdisj x HP HQ).
  - rewrite decide_True by tauto. simpl. by f_equiv.
  - rewrite decide_True by tauto. rewrite <- Permutation_middle. by f_equiv.
  - by rewrite decide_False by tauto.
Qed.

Lemma columns_perm (cs : list Z) (rem : list Block) :
  NoDup cs →
  cs ≫= (λ c, colBlocks c rem) ≡ₚ filter (λ b, Block.col b ∈ cs) rem.
Proof.
  induction 1 as [|x cs Hx Hnd IH].
  - simpl. rewrite filter_none; [done |].
    apply Forall_forall. intros b _. apply not_elem_of_nil.
  - rewrite bind_cons, IH, colBlocks_perm.
    rewrite filter_disjoint_perm by (intros b <- Hb; done).
    apply reflexive_eq, list_filter_iff. intros b. by rewrite elem_of_cons.
Qed.

Lemma gravityMoves_perm (rem : list Block) :
  (gravityMoves rem).*1 ≡ₚ filter (λ b, 0 ≤ Block.col b < GRID_COLS) rem.
Proof.
  rewrite gravityMoves_fst, columns_perm by apply NoDup_seqZ.
  apply reflexive_eq, list_filter_iff. intros b. rewrite elem_of_seqZ. lia.
Qed.

(** C3.  After a clear event, in every column [c] of the grid the rows
    occupied are exactly the [n] rows ending at [GRID_ROWS - 1], where [n]
    is the number of surviving blocks of the column: a contiguous range
    with no gap.  The blocks after the clear are the survivors of the grid
    columns, each with only its row changed, paired so that of two
    survivors of column [c] the one with the larger row before the clear
    has the larger row after it. *)
Theorem gravity_postcondition (u : Q) (s : State) (c : Z) :
  0 ≤ c < GRID_COLS →
  let rem := remaining (selectedIds s) (blocks s) in
  let s' := (clearEvent u s).1 in
  let n := Z.of_nat (length (filter (λ b, Block.col b = c) rem)) in
  (∀ r, (∃ b, b ∈ blocks s' ∧ Block.col b = c ∧ Block.row b = r) ↔
        GRID_ROWS - n ≤ r ≤ GRID_ROWS - 1) ∧
  ∃ moves : list (Block * Block),
    moves.*2 = blocks s' ∧
    moves.*1 ≡ₚ filter (λ b, 0 ≤ Block.col b < GRID_COLS) rem ∧
    (∀ a a', (a, a') ∈ moves → a' = Block.withRow (Block.row a') a) ∧
    (∀ a a' b b', (a, a') ∈ moves → (b, b') ∈ moves →
       Block.col a = c → Block.col b = c →
       Block.row b < Block.row a → Block.row b' < Block.row a').
Proof.
  intros Hc. cbv zeta. rewrite clearEvent_blocks.
  set (rem := remaining (selectedIds s) (blocks s)).
  split; [intros r; by apply gravity_rows |].
  exists (gravityMoves rem).
  split; [apply gravityMoves_snd |]. split; [apply gravityMoves_perm |]. split.
  - by intros a a' (c' & i & _ & _ & ->)%elem_of_gravityMoves.
  - intros a a' b b' (ca & i & _ & Ha & ->)%elem_of_gravityMoves
      (cb & j & _ & Hb & ->)%elem_of_gravityMoves Hca Hcb Hlt. simpl.
    assert (ca = c) as ->.
    { rewrite <- Hca. symmetry. eapply colBlocks_col, list_elem_of_lookup_2, Ha. }
    assert (cb = c) as ->.
    { rewrite <- Hcb. symmetry. eapply colBlocks_col, list_elem_of_lookup_2, Hb. }
    destruct (Nat.lt_trichotomy i j) as [Hij | [-> | Hji]]; [lia | |].
    + rewrite Ha in Hb. injection Hb as ->. lia.
    + pose proof (StronglySorted_lookup rowGe _ _ _ _ _
        (sortByRowDesc_sorted _) Hb Ha Hji) as Hge.
      unfold rowGe in Hge. lia.
Qed.

Lemma gravity_postcondition_witness :
  ∃ b, b ∈ blocks (clearEvent 0 (demoState ["b"] 4)).1 ∧
       Block.col b = 0 ∧ Block.row b = 8.
Proof.
  assert (0 ≤ 0 < GRID_COLS) as Hc by (unfold GRID_COLS; lia).
  destruct (gravity_postcondition 0 (demoState ["b"] 4) 0 Hc) as [Hrows _].
  apply Hrows. vm_compute. split; discriminate.
Defined.

(** ** One block per cell *)

Lemma cellsUnique_lookup (bs : list Block) :
  cellsUnique bs ↔
  ∀ i j a b, bs !! i = Some a → bs !! j = Some b →
             Block.cell a = Block.cell b → i = j.
Proof.
  unfold cellsUnique. rewrite NoDup_alt. split.
  - intros H i j a b Ha Hb Hab. apply (H i j (Block.cell a)).
    + by rewrite list_lookup_fmap, Ha.
    + by rewrite list_lookup_fmap, Hb, Hab.
  - intros H i j x Hi Hj. rewrite list_lookup_fmap in Hi, Hj.
    destruct (bs !! i) as [a|] eqn:Ha; [| done].
    destruct (bs !! j) as [b|] eqn:Hb; [| done].
    simpl in Hi, Hj. apply (H i j a b); congruence.
Qed.

Lemma initialBlocks_spec (dr : Z → Z → Draw) (b : Block) :
  b ∈ initialBlocks dr →
  GRID_ROWS - INITIAL_ROWS ≤ Block.row b ≤ GRID_ROWS - 1 ∧
  0 ≤ Block.col b < GRID_COLS ∧ Block.isNew b = None.
Proof.
  unfold initialBlocks.
  intros (r & (c & ->%list_elem_of_singleton & Hc%elem_of_seqZ)%list_elem_of_bind
            & Hr%elem_of_seqZ)%list_elem_of_bind.
  simpl. repeat split; lia.
Qed.

Lemma initialBlocks_gridInv (dr : Z → Z → Draw) : gridInv (initialBlocks dr).
Proof.
  split.
  - unfold cellsUnique.
    replace (Block.cell <$> initialBlocks dr)
      with (r ← seqZ 0 INITIAL_ROWS; c ← seqZ 0 GRID_COLS; [(GRID_ROWS - 1 - r, c)])
      by reflexivity.
    apply (bool_decide_unpack _). vm_compute. exact I.
  - apply Forall_forall. intros b Hb%initialBlocks_spec. lia.
Qed.

Lemma pushed_newRow_gridInv (dr : Z → Draw) (bs : list Block) :
  gridInv bs → gridInv (pushedBlocks bs ++ newRow dr).
Proof.
  intros [Hu Hrows]. rewrite Forall_forall in Hrows. split.
  - unfold cellsUnique. rewrite fmap_app. apply NoDup_app. split; [| split].
    + unfold pushedBlocks. rewrite <- list_fmap_compose.
      pose proof (proj1 (cellsUnique_lookup _) Hu) as Hu'.
      apply NoDup_alt. intros i j x Hi Hj.
      rewrite list_lookup_fmap in Hi, Hj.
      destruct (bs !! i) as [a|] eqn:Ha; [| done].
      destruct (bs !! j) as [b|] eqn:Hb; [| done].
      simpl in Hi, Hj. apply (Hu' i j a b Ha Hb).
      unfold Block.cell in *. simpl in *.
      assert (Block.row a - 1 = Block.row b - 1 ∧ Block.col a = Block.col b)
        as [??] by (split; congruence).
      f_equal; lia.
    + intros x (a & -> & (b & -> & Hb)%list_elem_of_fmap)%list_elem_of_fmap
        (n & Hn & Hnew%newRow_spec)%list_elem_of_fmap.
      apply Hrows in Hb. unfold Block.cell in Hn. simpl in Hn.
      injection Hn as Hr _. lia.
    + unfold newRow. rewrite <- list_fmap_compose.
      apply NoDup_fmap_2_strong; [| apply NoDup_seqZ].
      intros c1 c2 _ _ Heq. unfold Block.cell in Heq. simpl in Heq. congruence.
  - apply Forall_forall. intros b [Hb | Hb]%elem_of_app.
    + unfold pushedBlocks in Hb. apply list_elem_of_fmap in Hb as (a & -> & Ha).
      apply Hrows in Ha. simpl. lia.
    + apply newRow_spec in Hb. lia.
Qed.

Lemma addNewRow_gridInv (dr : Z → Draw) (s : State) :
  gridInv (blocks s) → gridInv (blocks (addNewRow dr s)).
Proof.
  intros H. destruct (willBeGameOver (blocks s)) eqn:E.
  - by rewrite addNewRow_over.
  - rewrite addNewRow_spawn by done. simpl. by apply pushed_newRow_gridInv.
Qed.

(** Whatever it is given, the gravity pass returns a grid that satisfies
    the invariant. *)
Lemma gravity_gridInv (rem : list Block) : gridInv (gravity rem).
Proof.
  split.
  - unfold cellsUnique, gravity. rewrite fmap_bind. apply NoDup_bind.
    + intros c1 c2 x _ _ (a & -> & Ha%restack_colBlocks_col)%list_elem_of_fmap
        (b & Hab & Hb%restack_colBlocks_col)%list_elem_of_fmap.
      unfold Block.cell in Hab. congruence.
    + intros c _. apply cellsUnique_lookup. intros i j a b Ha Hb Hab.
      rewrite restack_lookup in Ha, Hb.
      destruct (colBlocks c rem !! i); [| done].
      destruct (colBlocks c rem !! j); [| done].
      simpl in Ha, Hb. injection Ha as <-. injection Hb as <-.
      unfold Block.cell in Hab. simpl in Hab. injection Hab as Hr _. lia.
    + apply NoDup_seqZ.
  - apply Forall_forall. intros b (c & i & y & _ & _ & ->)%elem_of_gravity.
    simpl. lia.
Qed.

Lemma tick_blocks (dr : Z → Draw) (s : State) :
  blocks (tick dr s).1 = blocks s ∨
  blocks (tick dr s).1 = blocks (addNewRow dr s).
Proof.
  unfold tick. destruct (_ && _); [| by left].
  destruct (Qle_bool _ _); [by right | by left].
Qed.

Lemma sumCheck_blocks (u : Q) (s : State) :
  blocks (sumCheck u s).1 = blocks s ∨
  blocks (sumCheck u s).1 = blocks (clearEvent u s).1.
Proof.
  unfold sumCheck. case_bool_decide; [by left |].
  destruct (_ =? _); [by right |]. destruct (_ <? _); by left.
Qed.

Lemma toggleBlock_blocks (id : string) (s : State) :
  blocks (toggleBlock id s) = blocks s.
Proof. unfold toggleBlock. by destruct (_ || _). Qed.

Lemma Reachable_gridInv (s : State) : Reachable s → gridInv (blocks s).
Proof.
  induction 1 as [m dr u s0 | dr s _ IH | dr s _ IH | id s _ IH | u s _ IH
                 | u s _ IH | b s _ IH | f s _ IH | s _ IH | s _ IH];
    try done.
  - apply initialBlocks_gridInv.
  - destruct (tick_blocks dr s) as [-> | ->]; [done |]. by apply addNewRow_gridInv.
  - by apply addNewRow_gridInv.
  - by rewrite toggleBlock_blocks.
  - destruct (sumCheck_blocks u s) as [-> | ->]; [done |].
    rewrite clearEvent_blocks. apply gravity_gridInv.
  - rewrite clearEvent_blocks. apply gravity_gridInv.
Qed.

(** C5.  [initGame] produces a grid with at most one block per cell, and
    in every state reachable from it by timer firings, row spawns,
    selection toggles, sum checks and clear events (and the pause, level
    and menu buttons) at most one block occupies any [(row, col)]; from
    such a state the shift-and-append of [addNewRow] and the per-column
    re-stacking of a clear event again give at most one block per cell. *)
Theorem cell_uniqueness (s : State) :
  Reachable s →
  (∀ m dr u s0, cellsUnique (blocks (initGame m dr u s0))) ∧
  cellsUnique (blocks s) ∧
  (∀ i j a b, blocks s !! i = Some a → blocks s !! j = Some b →
     Block.row a = Block.row b → Block.col a = Block.col b → i = j) ∧
  (∀ dr, cellsUnique (blocks (addNewRow dr s))) ∧
  (∀ u, cellsUnique (blocks (clearEvent u s).1)).
Proof.
  intros Hr. pose proof (Reachable_gridInv s Hr) as Hinv.
  split; [intros m dr u s0; apply (initialBlocks_gridInv dr) |].
  split; [apply Hinv |]. split.
  - intros i j a b Ha Hb Hrow Hcol.
    apply (proj1 (cellsUnique_lookup _) (proj1 Hinv) i j a b Ha Hb).
    unfold Block.cell. congruence.
  - split.
    + intros dr. by apply addNewRow_gridInv.
    + intros u. rewrite clearEvent_blocks. apply gravity_gridInv.
Qed.

Lemma cell_uniqueness_witness :
  cellsUnique (blocks (addNewRow constDraw freshGame)).
Proof.
  apply (cell_uniqueness freshGame (reach_init _ _ _ _)).
Defined.

(** ** The scroll timer *)

Lemma tick_idle (dr : Z → Draw) (s : State) :
  gameStarted s && negb (gameOver s) && negb (isPaused s) = false →
  tick dr s = (s, []).
Proof. intros H. unfold tick. by rewrite H. Qed.

Lemma tick_spawn (dr : Z → Draw) (s : State) :
  gameStarted s = true → gameOver s = false → isPaused s = false →
  Qle_bool 100 (scrollProgress s + speed (level s)) = true →
  tick dr s = (addNewRow dr s |> setScrollProgress 0%Q, [SpawnRow]).
Proof. intros Hs Hg Hp Hq. unfold tick. by rewrite Hs, Hg, Hp, Hq. Qed.

Lemma tick_advance (dr : Z → Draw) (s : State) :
  gameStarted s = true → gameOver s = false → isPaused s = false →
  Qle_bool 100 (scrollProgress s + speed (level s)) = false →
  tick dr s = (s |> setScrollProgress (scrollProgress s + speed (level s))%Q, []).
Proof. intros Hs Hg Hp Hq. unfold tick. by rewrite Hs, Hg, Hp, Hq. Qed.

Lemma addNewRow_frame (dr : Z → Draw) (s : State) :
  gameStarted (addNewRow dr s) = gameStarted s ∧
  isPaused (addNewRow dr s) = isPaused s ∧
  level (addNewRow dr s) = level s.
Proof. unfold addNewRow. by destruct (willBeGameOver (blocks s)). Qed.

Lemma runTicks_S (n : nat) (dr : nat → Z → Draw) (s : State) :
  runTicks (S n) dr s =
    ((runTicks n (λ k, dr (S k)) (tick (dr O) s).1).1,
     (tick (dr O) s).2 ++ (runTicks n (λ k, dr (S k)) (tick (dr O) s).1).2).
Proof.
  simpl. destruct (tick (dr O) s) as [s1 t1]. simpl.
  by destruct (runTicks n _ s1).
Qed.

(** Once the game is over the timer is gone: further firings do nothing. *)
Lemma runTicks_over (n : nat) (dr : nat → Z → Draw) (s : State) :
  gameOver s = true → runTicks n dr s = (s, []).
Proof.
  revert dr s. induction n as [|n IH]; intros dr s Hg; [done |].
  rewrite runTicks_S, tick_idle.
  - simpl. by rewrite IH.
  - rewrite Hg. by destruct (gameStarted s).
Qed.

Lemma spawnCount_app (t1 t2 : list Signal) :
  spawnCount (t1 ++ t2) = (spawnCount t1 + spawnCount t2)%nat.
Proof. unfold spawnCount. by rewrite filter_app, length_app. Qed.

(** While no game over occurs, the spawns of the timer are those of the
    scroll counter at the speed of the (constant) level. *)
Lemma runTicks_scrollSim (n : nat) (dr : nat → Z → Draw) (s : State) :
  gameStarted s = true → isPaused s = false →
  gameOver (runTicks n dr s).1 = false →
  spawnCount (runTicks n dr s).2 =
    (scrollSim n (speed (level s)) (scrollProgress s)).2.
Proof.
  revert dr s. induction n as [|n IH]; intros dr s Hs Hp Hfin; [done |].
  destruct (gameOver s) eqn:Hg.
  { rewrite runTicks_over in Hfin by done. simpl in Hfin. congruence. }
  rewrite runTicks_S in Hfin |- *. cbn [fst snd] in Hfin |- *.
  rewrite spawnCount_app. cbn [scrollSim].
  destruct (Qle_bool 100 (scrollProgress s + speed (level s))) eqn:Hq.
  - rewrite tick_spawn in Hfin |- * by done. cbn [fst snd] in Hfin |- *.
    destruct (addNewRow_frame (dr O) s) as (Hs' & Hp' & Hl').
    rewrite IH; [| exact (eq_trans Hs' Hs) | exact (eq_trans Hp' Hp) | done].
    change (level (_ |> setScrollProgress 0%Q)) with (level (addNewRow (dr O) s)).
    change (scrollProgress (_ |> setScrollProgress 0%Q)) with 0%Q.
    rewrite Hl'. by destruct (scrollSim n (speed (level s)) 0).
  - rewrite tick_advance in Hfin |- * by done. cbn [fst snd] in Hfin |- *.
    by rewrite IH.
Qed.

Lemma scrollSim_proper (n : nat) (v v' p p' : Q) :
  (v == v')%Q → (p == p')%Q →
  (scrollSim n v p).2 = (scrollSim n v' p').2.
Proof.
  intros Hv. revert p p'. induction n as [|n IH]; intros p p' Hp; [done |].
  simpl. assert (Qle_bool 100 (p + v) = Qle_bool 100 (p' + v')) as ->
    by (by rewrite Hv, Hp).
  destruct (Qle_bool 100 (p' + v')).
  - specialize (IH 0%Q 0%Q (Qeq_refl 0)).
    destruct (scrollSim n v 0), (scrollSim n v' 0). simpl in *. by f_equal.
  - apply IH. by rewrite Hv, Hp.
Qed.

(** C8.  With exact rational arithmetic, from [scrollProgress = 0] at
    level 1 (speed 0.65 per firing), 1000 firings of the timer of a game
    that is started, not paused, not over, and in which no game over
    occurs, invoke [addNewRow] exactly [floor(1000 * 0.65 / 100) = 6]
    times.  A firing adds the speed to the progress, and spawns (leaving
    the progress at 0) exactly when the sum reaches or exceeds 100. *)
Theorem tick_spawn_count (dr : nat → Z → Draw) (s : State) :
  gameStarted s = true → isPaused s = false → gameOver s = false →
  level s = 1 → (scrollProgress s == 0)%Q →
  gameOver (runTicks 1000 dr s).1 = false →
  (speed (level s) == 65 # 100)%Q ∧
  spawnCount (runTicks 1000 dr s).2 =
    Z.to_nat (Qfloor (1000 * (65 # 100) / 100)) ∧
  spawnCount (runTicks 1000 dr s).2 = 6%nat ∧
  (∀ d (s1 : State),
     gameStarted s1 = true → isPaused s1 = false → gameOver s1 = false →
     let next := (scrollProgress s1 + speed (level s1))%Q in
     (SpawnRow ∈ (tick d s1).2 ↔ (100 <= next)%Q) ∧
     ((100 <= next)%Q → scrollProgress (tick d s1).1 = 0%Q) ∧
     (¬ (100 <= next)%Q → scrollProgress (tick d s1).1 = next)).
Proof.
  intros Hs Hp Hg Hl H0 Hfin.
  assert (spawnCount (runTicks 1000 dr s).2 = 6%nat) as H6.
  { rewrite runTicks_scrollSim by done. rewrite Hl.
    rewrite (scrollSim_proper 1000 (speed 1) (speed 1) _ 0 (Qeq_refl _) H0).
    by vm_compute. }
  split; [by rewrite Hl |]. split; [by rewrite H6 |]. split; [done |].
  intros d s1 Hs1 Hp1 Hg1. cbv zeta.
  destruct (Qle_bool 100 (scrollProgress s1 + speed (level s1))) eqn:Hq.
  - rewrite tick_spawn by done. simpl.
    apply Qle_bool_iff in Hq. split; [| split; [done | tauto]].
    split; [done |]. intros _. apply list_elem_of_here.
  - rewrite tick_advance by done. simpl.
    assert (¬ (100 <= scrollProgress s1 + speed (level s1))%Q) as Hn.
    { intros H%Qle_bool_iff. congruence. }
    split; [| split; [tauto | done]].
    split; [by intros ?%elem_of_nil | tauto].
Qed.

Lemma tick_spawn_count_witness :
  spawnCount (runTicks 1000 (λ _, constDraw) freshGame).2 = 6%nat.
Proof.
  apply (tick_spawn_count (λ _, constDraw) freshGame);
    [reflexivity | reflexivity | reflexivity | reflexivity | reflexivity |].
  by vm_compute.
Defined.

(** * Further properties of the component *)

(** Case analysis on a positive number that the context bounds: the cases
    the bounds exclude are closed by [lia]. *)
Ltac small_positive p :=
  do 4 try (destruct p as [p | p |]; try lia).

(** ** The generators *)

Lemma Qfloor_range (q : Q) (n : Z) :
  (0 <= q)%Q → (q < inject_Z n)%Q → 0 ≤ Qfloor q < n.
Proof.
  intros H0 Hn. split; [by apply Qfloor_nonneg |].
  rewrite Zlt_Qlt. eapply Qle_lt_trans; [apply Qfloor_le | done].
Qed.

Lemma Qfloor_inject_div (k n : Z) :
  0 < n → Qfloor ((k # Z.to_pos n) * inject_Z n) = k.
Proof.
  intros Hn. rewrite <- (Qfloor_Z k) at 2. apply Qfloor_comp.
  unfold Qeq, Qmult, inject_Z. simpl.
  rewrite Pos.mul_1_r, Z2Pos.id by done. lia.
Qed.

Lemma getRandomValue_range (u : Q) :
  unitRandom u → 1 ≤ getRandomValue u ≤ 10.
Proof.
  intros [H0 H1]. unfold getRandomValue.
  assert (0 ≤ Qfloor (u * 10) < 10); [| lia].
  apply Qfloor_range.
  - by apply Qmult_le_0_compat.
  - change (inject_Z 10) with (1 * 10)%Q. by apply Qmult_lt_compat_r.
Qed.

Lemma generateTarget_range (lvl : Z) (u : Q) :
  0 ≤ lvl → unitRandom u → 5 ≤ generateTarget lvl u ≤ 14 + lvl / 3.
Proof.
  intros Hl [H0 H1]. unfold generateTarget.
  pose proof (Z.div_pos lvl 3 Hl) as Hd.
  assert (0 ≤ Qfloor (u * inject_Z (10 + lvl / 3)) < 10 + lvl / 3); [| lia].
  assert (0 < inject_Z (10 + lvl / 3))%Q as Hpos.
  { change 0%Q with (inject_Z 0). rewrite <- Zlt_Qlt. lia. }
  apply Qfloor_range.
  - apply Qmult_le_0_compat; [done | by apply Qlt_le_weak].
  - rewrite <- (Qmult_1_l (inject_Z (10 + lvl / 3))) at 2.
    by apply Qmult_lt_compat_r.
Qed.

(** X1.  For a random number in [[0, 1)], [getRandomValue] returns an
    integer from 1 to 10, and each of these ten values is returned for some
    random number. *)
Theorem getRandomValue_onto (u : Q) :
  unitRandom u →
  1 ≤ getRandomValue u ≤ 10 ∧
  ∀ v, 1 ≤ v ≤ 10 → ∃ u', unitRandom u' ∧ getRandomValue u' = v.
Proof.
  intros Hu. split; [by apply getRandomValue_range |].
  intros v Hv. exists ((v - 1) # 10). split.
  - split; unfold Qle, Qlt; simpl; lia.
  - unfold getRandomValue.
    change 10%Q with (inject_Z 10). change 10%positive with (Z.to_pos 10).
    rewrite Qfloor_inject_div by lia. lia.
Qed.

Lemma getRandomValue_onto_witness : 1 ≤ getRandomValue (3 # 10) ≤ 10.
Proof.
  apply (getRandomValue_onto (3 # 10)). split; unfold Qle, Qlt; simpl; lia.
Defined.

(** X2.  For a level that is not negative and a random number in
    [[0, 1)], [generateTarget] returns an integer from 5 to
    [14 + floor(level / 3)], and each value of that range is returned for
    some random number: the range grows by one every three levels. *)
Theorem generateTarget_onto (lvl : Z) (u : Q) :
  0 ≤ lvl → unitRandom u →
  5 ≤ generateTarget lvl u ≤ 14 + lvl / 3 ∧
  ∀ t, 5 ≤ t ≤ 14 + lvl / 3 →
    ∃ u', unitRandom u' ∧ generateTarget lvl u' = t.
Proof.
  intros Hl Hu. split; [by apply generateTarget_range |].
  pose proof (Z.div_pos lvl 3 Hl) as Hd.
  intros t Ht. exists ((t - 5) # Z.to_pos (10 + lvl / 3)). split.
  - split; unfold Qle, Qlt; simpl; rewrite ?Z2Pos.id; lia.
  - unfold generateTarget. rewrite Qfloor_inject_div by lia. lia.
Qed.

Lemma generateTarget_onto_witness : 5 ≤ generateTarget 7 (99 # 100) ≤ 16.
Proof.
  apply (generateTarget_onto 7 (99 # 100)); [lia |].
  split; unfold Qle, Qlt; simpl; lia.
Defined.

(** X3.  Every value [getRandomValue] can return has a colour of its own:
    [getBlockColor] never falls back to the grey default on such a value,
    and two blocks share a colour only if they share the value.  Any value
    outside 1..10 gets the default. *)
Theorem getBlockColor_distinct (u v : Q) :
  unitRandom u → unitRandom v →
  getBlockColor (getRandomValue u) ≠ fallbackColor ∧
  (getBlockColor (getRandomValue u) = getBlockColor (getRandomValue v) →
     getRandomValue u = getRandomValue v) ∧
  ∀ x, ¬ 1 ≤ x ≤ 10 → getBlockColor x = fallbackColor.
Proof.
  intros Hu%getRandomValue_range Hv%getRandomValue_range.
  generalize dependent (getRandomValue v). generalize dependent (getRandomValue u).
  intros a Ha b Hb. split; [| split].
  - destruct a as [|p|p]; try lia. small_positive p; discriminate.
  - destruct a as [|p|p]; try lia. destruct b as [|q|q]; try lia.
    small_positive p; small_positive q; (reflexivity || discriminate).
  - intros x Hx. destruct x as [|p|p]; [done | | done].
    small_positive p; reflexivity.
Qed.

Lemma getBlockColor_distinct_witness :
  getBlockColor (getRandomValue (3 # 10)) ≠ fallbackColor.
Proof.
  apply (getBlockColor_distinct (3 # 10) (3 # 10));
    split; unfold Qle, Qlt; simpl; lia.
Defined.

(** ** The high score *)

Lemma highScoreAfter_ge (hs : Z) (scores : list Z) :
  hs ≤ highScoreAfter hs scores.
Proof.
  revert hs. induction scores as [|sc l IH]; intros hs; simpl; [done |].
  etrans; [| apply IH]. unfold updateHighScore.
  destruct (Z.ltb_spec hs sc); lia.
Qed.

Lemma highScoreAfter_fixed (hs : Z) (scores : list Z) :
  Forall (λ sc, sc ≤ hs) scores → highScoreAfter hs scores = hs.
Proof.
  induction 1 as [|sc l Hsc _ IH]; simpl; [done |].
  unfold updateHighScore. by rewrite (proj2 (Z.ltb_ge _ _)) by lia.
Qed.

(** X4.  Running the high-score effect for each score of a sequence leaves
    a high score that is at least the stored one and at least every score
    seen, and that is one of these values; running the effect again for
    the same scores changes nothing. *)
Theorem highScore_running_max (hs : Z) (scores : list Z) :
  let hs' := highScoreAfter hs scores in
  hs ≤ hs' ∧ Forall (λ sc, sc ≤ hs') scores ∧
  (hs' = hs ∨ hs' ∈ scores) ∧ highScoreAfter hs' scores = hs'.
Proof.
  cbv zeta.
  assert (Forall (λ sc, sc ≤ highScoreAfter hs scores) scores) as Hall.
  { revert hs. induction scores as [|sc l IH]; intros hs; [done |].
    simpl. constructor; [| apply IH].
    etrans; [| apply highScoreAfter_ge]. unfold updateHighScore.
    destruct (Z.ltb_spec hs sc); lia. }
  split; [apply highScoreAfter_ge |]. split; [done |].
  split; [| by apply highScoreAfter_fixed].
  clear Hall. revert hs. induction scores as [|sc l IH]; intros hs; [by left |].
  simpl. destruct (IH (updateHighScore sc hs)) as [-> | Hin].
  - unfold updateHighScore. destruct (hs <? sc); [right; left | by left].
  - right. by right.
Qed.

(** ** The board: bounds and stacking *)

Lemma elem_of_initialBlocks (dr : Z → Z → Draw) (b : Block) :
  b ∈ initialBlocks dr ↔
  ∃ r c, 0 ≤ r < INITIAL_ROWS ∧ 0 ≤ c < GRID_COLS ∧
    b = Block.mk (drawId (dr r c)) (getRandomValue (drawRandom (dr r c)))
          (GRID_ROWS - 1 - r) c None.
Proof.
  unfold initialBlocks. rewrite list_elem_of_bind. split.
  - intros (r & (c & ->%list_elem_of_singleton & Hc%elem_of_seqZ)%list_elem_of_bind
              & Hr%elem_of_seqZ).
    exists r, c. split; [lia |]. split; [lia | done].
  - intros (r & c & Hr & Hc & ->). exists r. split; [| apply elem_of_seqZ; lia].
    apply list_elem_of_bind. exists c.
    split; [by apply list_elem_of_singleton | apply elem_of_seqZ; lia].
Qed.

Lemma elem_of_newRow (dr : Z → Draw) (b : Block) :
  b ∈ newRow dr ↔
  ∃ c, 0 ≤ c < GRID_COLS ∧
    b = Block.mk (drawId (dr c)) (getRandomValue (drawRandom (dr c)))
          (GRID_ROWS - 1) c (Some true).
Proof.
  unfold newRow. rewrite list_elem_of_fmap. split.
  - intros (c & -> & Hc%elem_of_seqZ). exists c. split; [lia | done].
  - intros (c & Hc & ->). exists c. split; [done | apply elem_of_seqZ; lia].
Qed.

Lemma elem_of_pushedBlocks (bs : list Block) (b : Block) :
  b ∈ pushedBlocks bs ↔
  ∃ a, a ∈ bs ∧ b = Block.withRow (Block.row a - 1) a.
Proof.
  unfold pushedBlocks. rewrite list_elem_of_fmap. split.
  - intros (a & -> & Ha). by exists a.
  - intros (a & Ha & ->). by exists a.
Qed.

Lemma colCount_app (c : Z) (l1 l2 : list Block) :
  colCount c (l1 ++ l2) = (colCount c l1 + colCount c l2)%nat.
Proof. unfold colCount. by rewrite filter_app, length_app. Qed.

Lemma colCount_pushedBlocks (c : Z) (bs : list Block) :
  colCount c (pushedBlocks bs) = colCount c bs.
Proof.
  unfold colCount, pushedBlocks. induction bs as [|b bs IH]; [done |].
  rewrite fmap_cons, !filter_cons. simpl.
  destruct (decide (Block.col b = c)); simpl; by rewrite IH.
Qed.

Lemma colCount_newRow (c : Z) (dr : Z → Draw) :
  0 ≤ c < GRID_COLS → colCount c (newRow dr) = 1%nat.
Proof.
  unfold GRID_COLS. intros Hc.
  destruct c as [|p|p]; try lia; [reflexivity |].
  small_positive p; reflexivity.
Qed.

Lemma colCount_initialBlocks (c : Z) (dr : Z → Z → Draw) :
  0 ≤ c < GRID_COLS →
  colCount c (initialBlocks dr) = Z.to_nat INITIAL_ROWS.
Proof.
  unfold GRID_COLS. intros Hc.
  destruct c as [|p|p]; try lia; [reflexivity |].
  small_positive p; reflexivity.
Qed.

Lemma colCount_gravity (c : Z) (rem : list Block) :
  0 ≤ c < GRID_COLS → colCount c (gravity rem) = colCount c rem.
Proof.
  intros Hc. unfold colCount. rewrite filter_col_gravity by done.
  rewrite length_restack. apply Permutation_length, colBlocks_perm.
Qed.

Lemma cellsUnique_filter (P : Block → Prop) `{!∀ b, Decision (P b)}
    (bs : list Block) :
  cellsUnique bs → cellsUnique (filter P bs).
Proof.
  unfold cellsUnique. intros Hu.
  apply (sublist_NoDup _ _ Hu), fmap_sublist, sublist_filter.
Qed.

(** A column of a board with one block per cell, all inside the grid,
    holds at most [GRID_ROWS] blocks. *)
Lemma colCount_le (c : Z) (bs : list Block) :
  cellsUnique bs → Forall inGrid bs → (colCount c bs ≤ Z.to_nat GRID_ROWS)%nat.
Proof.
  intros Hu Hin. unfold colCount.
  rewrite <- (length_seqZ 0 GRID_ROWS), <- (length_fmap Block.row).
  apply submseteq_length, NoDup_submseteq.
  - apply (NoDup_fmap_1 (λ r, (r, c))). rewrite <- list_fmap_compose.
    pose proof (cellsUnique_filter (λ b, Block.col b = c) bs Hu) as Hf.
    unfold cellsUnique in Hf.
    erewrite list_fmap_ext; [exact Hf |].
    intros i b Hb%list_elem_of_lookup_2%list_elem_of_filter.
    destruct Hb as [<- _]. done.
  - intros r (b & -> & [_ Hb]%list_elem_of_filter)%list_elem_of_fmap.
    rewrite Forall_forall in Hin. destruct (Hin b Hb) as [Hr _].
    apply elem_of_seqZ. lia.
Qed.

Lemma compact_initialBlocks (dr : Z → Z → Draw) : compact (initialBlocks dr).
Proof.
  intros c r Hc. rewrite colCount_initialBlocks by done. split.
  - intros (b & (r0 & c0 & Hr0 & _ & ->)%elem_of_initialBlocks & _ & <-).
    simpl. grid.
  - intros Hr. eexists. split; [| split].
    + apply elem_of_initialBlocks. exists (GRID_ROWS - 1 - r), c.
      split; [grid |]. split; [done | reflexivity].
    + done.
    + simpl. lia.
Qed.

Lemma compact_spawn (dr : Z → Draw) (bs : list Block) :
  compact bs → compact (pushedBlocks bs ++ newRow dr).
Proof.
  intros Hbs c r Hc.
  rewrite colCount_app, colCount_pushedBlocks, colCount_newRow by done.
  specialize (Hbs c). split.
  - intros (b & [Hb | Hb]%elem_of_app & Hcol & Hrow).
    + apply elem_of_pushedBlocks in Hb as (a & Ha & ->). simpl in *.
      assert (GRID_ROWS - Z.of_nat (colCount c bs) ≤ Block.row a ≤ GRID_ROWS - 1)
        by (apply (Hbs (Block.row a) Hc); by exists a).
      lia.
    + apply newRow_spec in Hb. lia.
  - intros Hr. destruct (decide (r = GRID_ROWS - 1)) as [-> | Hne].
    + eexists. split; [| split].
      * apply elem_of_app. right. apply elem_of_newRow. by exists c.
      * done.
      * done.
    + destruct (proj2 (Hbs (r + 1) Hc)) as (a & Ha & Hcol & Hrow); [lia |].
      exists (Block.withRow (Block.row a - 1) a). split; [| split].
      * apply elem_of_app. left. apply elem_of_pushedBlocks. by exists a.
      * done.
      * simpl. lia.
Qed.

Lemma compact_gravity (rem : list Block) : compact (gravity rem).
Proof.
  intros c r Hc. rewrite colCount_gravity by done. by apply gravity_rows.
Qed.

Lemma inGrid_initialBlocks (dr : Z → Z → Draw) :
  Forall inGrid (initialBlocks dr).
Proof.
  apply Forall_forall. intros b Hb%initialBlocks_spec. unfold inGrid. grid.
Qed.

Lemma inGrid_spawn (dr : Z → Draw) (bs : list Block) :
  Forall inGrid bs → willBeGameOver bs = false →
  Forall inGrid (pushedBlocks bs ++ newRow dr).
Proof.
  rewrite !Forall_forall. intros Hin Hno%willBeGameOver_false.
  intros b [(a & Ha & ->)%elem_of_pushedBlocks | Hb%newRow_spec]%elem_of_app.
  - destruct (Hin a Ha) as [Hr Hc]. split; [| done]. simpl.
    assert (¬ Block.row a ≤ 0) by (intros ?; apply Hno; by exists a). lia.
  - unfold inGrid. grid.
Qed.

Lemma inGrid_gravity (rem : list Block) :
  cellsUnique rem → Forall inGrid rem → Forall inGrid (gravity rem).
Proof.
  intros Hu Hin. apply Forall_forall.
  intros b (c & i & y & Hc & Hy & ->)%elem_of_gravity.
  pose proof (colCount_le c rem Hu Hin) as Hle.
  pose proof (lookup_lt_Some _ _ _ Hy) as Hi.
  rewrite (Permutation_length (colBlocks_perm c rem)) in Hi.
  unfold colCount in Hle.
  apply list_elem_of_lookup_2, colBlocks_col in Hy.
  split; simpl; [grid | by rewrite Hy].
Qed.

Lemma gridOK_nil : gridOK [].
Proof.
  split; [apply NoDup_nil_2 |]. split; [done |].
  intros c r Hc. unfold colCount. simpl. split; [| grid].
  by intros (b & ?%elem_of_nil & _).
Qed.

Lemma gridOK_initialBlocks (dr : Z → Z → Draw) : gridOK (initialBlocks dr).
Proof.
  split; [apply initialBlocks_gridInv |].
  split; [apply inGrid_initialBlocks | apply compact_initialBlocks].
Qed.

Lemma gridOK_gridInv (bs : list Block) : gridOK bs → gridInv bs.
Proof.
  intros (Hu & Hin & _). split; [done |].
  eapply Forall_impl; [exact Hin |]. intros b [Hr _]. lia.
Qed.

Lemma gridOK_addNewRow (dr : Z → Draw) (s : State) :
  gridOK (blocks s) → gridOK (blocks (addNewRow dr s)).
Proof.
  intros H. destruct (willBeGameOver (blocks s)) eqn:E.
  - by rewrite addNewRow_over.
  - rewrite addNewRow_spawn by done. simpl.
    pose proof (gridOK_gridInv _ H) as Hinv. destruct H as (Hu & Hin & Hc).
    split; [by apply pushed_newRow_gridInv |].
    split; [by apply inGrid_spawn | by apply compact_spawn].
Qed.

Lemma gridOK_clear (sel : list string) (bs : list Block) :
  gridOK bs → gridOK (gravity (remaining sel bs)).
Proof.
  intros (Hu & Hin & _). split; [apply gravity_gridInv |]. split.
  - apply inGrid_gravity; [by apply cellsUnique_filter |].
    rewrite Forall_forall in Hin. apply Forall_forall.
    intros b [_ Hb]%list_elem_of_filter. by apply Hin.
  - apply compact_gravity.
Qed.

Lemma gridOK_tick (dr : Z → Draw) (s : State) :
  gridOK (blocks s) → gridOK (blocks (tick dr s).1).
Proof.
  intros H. destruct (tick_blocks dr s) as [-> | ->]; [done |].
  by apply gridOK_addNewRow.
Qed.

Lemma gridOK_sumCheck (u : Q) (s : State) :
  gridOK (blocks s) → gridOK (blocks (sumCheck u s).1).
Proof.
  intros H. destruct (sumCheck_blocks u s) as [-> | ->]; [done |].
  rewrite clearEvent_blocks. by apply gridOK_clear.
Qed.

Lemma Reachable_gridOK (s : State) : Reachable s → gridOK (blocks s).
Proof.
  induction 1 as [m dr u s0 | dr s _ IH | dr s _ IH | id s _ IH | u s _ IH
                 | u s _ IH | b s _ IH | f s _ IH | s _ IH | s _ IH];
    try done.
  - apply gridOK_initialBlocks.
  - by apply gridOK_tick.
  - by apply gridOK_addNewRow.
  - by rewrite toggleBlock_blocks.
  - by apply gridOK_sumCheck.
  - rewrite clearEvent_blocks. by apply gridOK_clear.
Qed.

Lemma Played_gridOK (s : State) : Played s → gridOK (blocks s).
Proof.
  induction 1 as [| e s _ IH _]; [apply gridOK_nil |].
  destruct e; simpl; try done.
  - apply gridOK_initialBlocks.
  - apply gridOK_initialBlocks.
  - by apply gridOK_tick.
  - by rewrite toggleBlock_blocks.
  - by apply gridOK_sumCheck.
Qed.

Lemma blocks_length_le (bs : list Block) :
  cellsUnique bs → Forall inGrid bs →
  (length bs ≤ Z.to_nat (GRID_ROWS * GRID_COLS))%nat.
Proof.
  intros Hu Hin. rewrite <- (length_fmap Block.cell).
  change (Z.to_nat (GRID_ROWS * GRID_COLS))
    with (length (r ← seqZ 0 GRID_ROWS; c ← seqZ 0 GRID_COLS; [(r, c)])).
  apply submseteq_length, NoDup_submseteq; [done |].
  intros x (b & -> & Hb)%list_elem_of_fmap.
  rewrite Forall_forall in Hin. destruct (Hin b Hb) as [Hr Hc].
  apply list_elem_of_bind. exists (Block.row b). split; [| apply elem_of_seqZ; lia].
  apply list_elem_of_bind. exists (Block.col b). split; [| apply elem_of_seqZ; lia].
  by apply list_elem_of_singleton.
Qed.

Lemma game_gridOK (s : State) : Reachable s ∨ Played s → gridOK (blocks s).
Proof. intros [H | H]; [by apply Reachable_gridOK | by apply Played_gridOK]. Qed.

(** X5.  In every state of a game, and in every state of the mounted
    component, all blocks lie inside the grid ([0 <= row < GRID_ROWS],
    [0 <= col < GRID_COLS]), no column holds more than [GRID_ROWS] blocks
    and the board holds at most [GRID_ROWS * GRID_COLS] blocks. *)
Theorem grid_bounds (s : State) :
  Reachable s ∨ Played s →
  Forall inGrid (blocks s) ∧
  (∀ c, (colCount c (blocks s) ≤ Z.to_nat GRID_ROWS)%nat) ∧
  (length (blocks s) ≤ Z.to_nat (GRID_ROWS * GRID_COLS))%nat.
Proof.
  intros (Hu & Hin & _)%game_gridOK. split; [done |]. split.
  - intros c. by apply colCount_le.
  - by apply blocks_length_le.
Qed.

Lemma grid_bounds_witness :
  Forall inGrid (blocks (addNewRow constDraw freshGame)).
Proof.
  apply (grid_bounds (addNewRow constDraw freshGame)).
  left. apply reach_spawn, reach_init.
Defined.

(** X6.  In every state of a game, not only after a clear, the columns
    are stacked from the bottom: a grid column with [n] blocks occupies
    exactly the rows [GRID_ROWS - n .. GRID_ROWS - 1], so every cell below
    a block is occupied. *)
Theorem columns_stacked (s : State) :
  Reachable s ∨ Played s →
  (∀ c r, 0 ≤ c < GRID_COLS →
     (∃ b, b ∈ blocks s ∧ Block.col b = c ∧ Block.row b = r) ↔
     GRID_ROWS - Z.of_nat (colCount c (blocks s)) ≤ r ≤ GRID_ROWS - 1) ∧
  (∀ b r, b ∈ blocks s → Block.row b ≤ r ≤ GRID_ROWS - 1 →
     ∃ b', b' ∈ blocks s ∧ Block.col b' = Block.col b ∧ Block.row b' = r).
Proof.
  intros (Hu & Hin & Hc)%game_gridOK. split; [exact Hc |].
  intros b r Hb Hr. rewrite Forall_forall in Hin.
  destruct (Hin b Hb) as [_ Hcol]. apply (Hc (Block.col b) r Hcol).
  assert (GRID_ROWS - Z.of_nat (colCount (Block.col b) (blocks s))
            ≤ Block.row b ≤ GRID_ROWS - 1)
    by (apply (Hc (Block.col b) (Block.row b) Hcol); by exists b).
  lia.
Qed.

Lemma columns_stacked_witness :
  ∃ b, b ∈ blocks (addNewRow constDraw freshGame) ∧
       Block.col b = 2 ∧ Block.row b = 5.
Proof.
  assert (Reachable (addNewRow constDraw freshGame) ∨
          Played (addNewRow constDraw freshGame)) as H
    by (left; apply reach_spawn, reach_init).
  destruct (columns_stacked _ H) as [Hc _].
  apply Hc; [unfold GRID_COLS; lia |]. vm_compute. split; discriminate.
Defined.

Lemma willBeGameOver_full (bs : list Block) :
  gridOK bs →
  willBeGameOver bs = true ↔
  ∃ c, 0 ≤ c < GRID_COLS ∧ colCount c bs = Z.to_nat GRID_ROWS.
Proof.
  intros (Hu & Hin & Hc). rewrite willBeGameOver_true. split.
  - intros (b & Hb & Hrow).
    pose proof (colCount_le (Block.col b) bs Hu Hin) as Hle.
    rewrite Forall_forall in Hin.
    destruct (Hin b Hb) as [_ Hcol]. exists (Block.col b). split; [done |].
    assert (GRID_ROWS - Z.of_nat (colCount (Block.col b) bs)
              ≤ Block.row b ≤ GRID_ROWS - 1)
      by (apply (Hc (Block.col b) (Block.row b) Hcol); by exists b).
    lia.
  - intros (c & Hcol & Hfull).
    destruct (proj2 (Hc c 0 Hcol)) as (b & Hb & _ & Hrow); [rewrite Hfull; grid |].
    exists b. split; [done | lia].
Qed.

Lemma addNewRow_blocks_kept (dr : Z → Draw) (s : State) :
  blocks (addNewRow dr s) = blocks s ↔ willBeGameOver (blocks s) = true.
Proof.
  destruct (willBeGameOver (blocks s)) eqn:E.
  - by rewrite addNewRow_over.
  - rewrite addNewRow_spawn by done. simpl. split; [| done].
    intros Hb%(f_equal length). rewrite length_app, length_newRow in Hb.
    unfold pushedBlocks in Hb. rewrite length_fmap in Hb. grid.
Qed.

Lemma Reachable_spawns (n : nat) (dr : nat → Z → Draw) (s : State) :
  Reachable s → Reachable (spawns n dr s).
Proof.
  revert dr s. induction n as [|n IH]; intros dr s Hs; [done |].
  simpl. by apply IH, reach_spawn.
Qed.

(** X7.  In every state of a game, a row spawn leaves the board as it is
    exactly when some grid column is full (holds [GRID_ROWS] blocks);
    otherwise it adds exactly one block to every grid column. *)
Theorem spawn_refused_iff_column_full (dr : Z → Draw) (s : State) :
  Reachable s ∨ Played s →
  (blocks (addNewRow dr s) = blocks s ↔
     ∃ c, 0 ≤ c < GRID_COLS ∧ colCount c (blocks s) = Z.to_nat GRID_ROWS) ∧
  ((¬ ∃ c, 0 ≤ c < GRID_COLS ∧ colCount c (blocks s) = Z.to_nat GRID_ROWS) →
     ∀ c, 0 ≤ c < GRID_COLS →
       colCount c (blocks (addNewRow dr s)) = S (colCount c (blocks s))).
Proof.
  intros Hok%game_gridOK. pose proof (willBeGameOver_full _ Hok) as Hfull.
  split.
  - by rewrite addNewRow_blocks_kept.
  - intros Hno c Hc.
    assert (willBeGameOver (blocks s) = false) as E.
    { destruct (willBeGameOver (blocks s)); [| done]. destruct Hno. by apply Hfull. }
    rewrite addNewRow_spawn by done. simpl.
    rewrite colCount_app, colCount_pushedBlocks, colCount_newRow by done. lia.
Qed.

Lemma spawn_refused_iff_column_full_witness :
  blocks (addNewRow constDraw fullBoard) = blocks fullBoard.
Proof.
  assert (Reachable fullBoard ∨ Played fullBoard) as H
    by (left; apply Reachable_spawns, reach_init).
  apply (spawn_refused_iff_column_full constDraw fullBoard H).
  exists 0. split; [unfold GRID_COLS; lia | reflexivity].
Defined.

(** ** How the operations act on the cells *)

Lemma speed_pos (lvl : Z) : 1 ≤ lvl → (65 # 100 <= speed lvl)%Q.
Proof.
  intros Hl. unfold speed.
  assert (1 <= inject_Z lvl)%Q by (change 1%Q with (inject_Z 1); by rewrite <- Zle_Qle).
  lra.
Qed.

Lemma tick_cases (dr : Z → Draw) (s : State) :
  tick dr s = (s, []) ∨
  (gameStarted s = true ∧ gameOver s = false ∧ isPaused s = false ∧
   ((scrollProgress s + speed (level s) < 100)%Q ∧
    tick dr s = (setScrollProgress (scrollProgress s + speed (level s))%Q s, [])
    ∨
    (100 <= scrollProgress s + speed (level s))%Q ∧
    tick dr s = (setScrollProgress 0%Q (addNewRow dr s), [SpawnRow]))).
Proof.
  destruct (gameStarted s && negb (gameOver s) && negb (isPaused s)) eqn:E.
  - right. apply andb_true_iff in E as [[Hs Hg]%andb_true_iff Hp].
    apply negb_true_iff in Hg, Hp. split; [done |]. split; [done |]. split; [done |].
    destruct (Qle_bool 100 (scrollProgress s + speed (level s))) eqn:Hq.
    + right. split; [by apply Qle_bool_iff | by apply tick_spawn].
    + left. split; [| by apply tick_advance].
      apply Qnot_le_lt. intros H%Qle_bool_iff. congruence.
  - left. by apply tick_idle.
Qed.

Lemma sumCheck_cases (u : Q) (s : State) :
  sumCheck u s = (s, []) ∨
  sumCheck u s = (setSelectedIds (λ _, []) s, []) ∨
  (selectedIds s ≠ [] ∧ currentSum s = targetSum s ∧
   sumCheck u s = clearEvent u s).
Proof.
  unfold sumCheck. case_bool_decide as Hsel; [by left |].
  destruct (Z.eqb_spec (currentSum s) (targetSum s)); [by right; right |].
  destruct (targetSum s <? currentSum s); [right |]; by left.
Qed.

Lemma addNewRow_cells (dr : Z → Draw) (s : State) :
  ∃ bs g, addNewRow dr s =
    mkState bs (targetSum s) (score s) (selectedIds s) g (mode s) (isPaused s)
      (level s) (gameStarted s) (startLevel s) 0%Q (blocksClearedInLevel s)
      (showLevelUp s).
Proof.
  unfold addNewRow. destruct (willBeGameOver (blocks s)); by eexists _, _.
Qed.

Lemma clearEvent_cells (u : Q) (s : State) :
  let n := Z.of_nat (length (selectedIds s)) in
  ∃ lvl acc shown,
    (clearEvent u s).1 =
      mkState (gravity (remaining (selectedIds s) (blocks s)))
        (generateTarget (level s) u) (score s + n * 10 * level s) []
        (gameOver s) (mode s) (isPaused s) lvl (gameStarted s) (startLevel s)
        (scrollProgress s) acc shown ∧
    (blocksClearedInLevel s + n < BLOCKS_PER_LEVEL ∧ lvl = level s ∧
       acc = blocksClearedInLevel s + n
     ∨ BLOCKS_PER_LEVEL ≤ blocksClearedInLevel s + n ∧ lvl = level s + 1 ∧
       acc = blocksClearedInLevel s + n - BLOCKS_PER_LEVEL).
Proof.
  cbv zeta. unfold clearEvent.
  destruct (Z.leb_spec BLOCKS_PER_LEVEL
              (blocksClearedInLevel s + Z.of_nat (length (selectedIds s))));
    eexists _, _, _; (split; [reflexivity |]); [right | left]; done.
Qed.

(** ** The numeric cells *)

Lemma numbersOK_initGame (m : GameMode) (dr : Z → Z → Draw) (u : Q) (s : State) :
  1 ≤ startLevel s ≤ 10 → unitRandom u → numbersOK (initGame m dr u s).
Proof.
  intros Hsl Hu. unfold numbersOK. simpl.
  pose proof (generateTarget_range (startLevel s) u ltac:(lia) Hu).
  repeat split; try lia; try done. by exists 0.
Qed.

Lemma numbersOK_clearEvent (u : Q) (s : State) :
  numbersOK s → unitRandom u → numbersOK (clearEvent u s).1.
Proof.
  intros (Hsl & Hl & Hs & [k Hk] & Ht & Ha & Hp0 & Hp1) Hu.
  destruct (clearEvent_cells u s) as (lvl & acc & shown & -> & Hcase).
  pose proof (generateTarget_range (level s) u ltac:(lia) Hu) as Hg.
  assert (level s / 3 ≤ lvl / 3) as Hdiv
    by (apply Z.div_le_mono; [lia | destruct Hcase as [(_ & -> & _) | (_ & -> & _)]; lia]).
  unfold numbersOK. simpl.
  split; [done |]. split; [destruct Hcase as [(_ & -> & _) | (_ & -> & _)]; lia |].
  split; [nia |]. split.
  { exists (k + Z.of_nat (length (selectedIds s)) * level s). lia. }
  split; [lia |]. split; [| done].
  destruct Hcase as [(_ & _ & ->) | (? & _ & ->)]; lia.
Qed.

Lemma numbersOK_sumCheck (u : Q) (s : State) :
  numbersOK s → unitRandom u → numbersOK (sumCheck u s).1.
Proof.
  intros H Hu. destruct (sumCheck_cases u s) as [-> | [-> | (_ & _ & ->)]];
    [done | done | by apply numbersOK_clearEvent].
Qed.

Lemma numbersOK_tick (dr : Z → Draw) (s : State) :
  numbersOK s → numbersOK (tick dr s).1.
Proof.
  intros H. destruct (tick_cases dr s)
    as [-> | (_ & _ & _ & [[Hlt ->] | [_ ->]])]; [done | |].
  - destruct H as (Hsl & Hl & Hs & Hk & Ht & Ha & Hp0 & Hp1).
    unfold numbersOK. simpl. repeat split; try done; try lia.
    pose proof (speed_pos (level s) Hl). lra.
  - destruct (addNewRow_cells dr s) as (bs & g & ->).
    destruct H as (Hsl & Hl & Hs & Hk & Ht & Ha & Hp0 & Hp1).
    unfold numbersOK. simpl. repeat split; try done; lia.
Qed.

Lemma Played_numbersOK (s : State) : Played s → numbersOK s.
Proof.
  induction 1 as [| e s _ IH Hen].
  - unfold numbersOK. simpl. repeat split; try lia; try done. by exists 0.
  - destruct e; simpl in *.
    + destruct IH as (Hsl & IH). split; [simpl; lia | exact IH].
    + destruct IH as (Hsl & IH). split; [simpl; lia | exact IH].
    + apply numbersOK_initGame; [apply IH | apply Hen].
    + apply numbersOK_initGame; [apply IH | apply Hen].
    + by apply numbersOK_tick.
    + unfold toggleBlock. by destruct (_ || _).
    + by apply numbersOK_sumCheck.
    + exact IH.
    + exact IH.
    + exact IH.
    + exact IH.
Qed.

(** ** Values and selection *)

(** The gravity pass only builds blocks from the blocks it is given. *)
Lemma elem_of_gravity_source (rem : list Block) (b : Block) :
  b ∈ gravity rem → ∃ y, y ∈ rem ∧ stripRow b = stripRow y.
Proof.
  intros (c & i & y & _ & Hy & ->)%elem_of_gravity. exists y. split; [| done].
  apply list_elem_of_lookup_2 in Hy. rewrite colBlocks_perm in Hy.
  by apply list_elem_of_filter in Hy as [_ ?].
Qed.

Lemma valuesOK_initialBlocks (dr : Z → Z → Draw) :
  (∀ r c, unitRandom (drawRandom (dr r c))) → valuesOK (initialBlocks dr).
Proof.
  intros Hdr. apply Forall_forall.
  intros b (r & c & _ & _ & ->)%elem_of_initialBlocks. simpl.
  apply getRandomValue_range, Hdr.
Qed.

Lemma valuesOK_addNewRow (dr : Z → Draw) (s : State) :
  (∀ c, unitRandom (drawRandom (dr c))) →
  valuesOK (blocks s) → valuesOK (blocks (addNewRow dr s)).
Proof.
  intros Hdr H. destruct (willBeGameOver (blocks s)) eqn:E.
  - by rewrite addNewRow_over.
  - rewrite addNewRow_spawn by done. simpl. unfold valuesOK in *.
    rewrite Forall_forall in H. apply Forall_forall.
    intros b [(a & Ha & ->)%elem_of_pushedBlocks
             | (c & _ & ->)%elem_of_newRow]%elem_of_app; simpl.
    + by apply H.
    + apply getRandomValue_range, Hdr.
Qed.

Lemma valuesOK_clear (sel : list string) (bs : list Block) :
  valuesOK bs → valuesOK (gravity (remaining sel bs)).
Proof.
  unfold valuesOK. rewrite !Forall_forall.
  intros H b (y & [_ Hy]%list_elem_of_filter & Heq)%elem_of_gravity_source.
  injection Heq as _ -> _ _. by apply H.
Qed.

Lemma Played_valuesOK (s : State) : Played s → valuesOK (blocks s).
Proof.
  induction 1 as [| e s _ IH Hen]; [by apply Forall_nil |].
  destruct e; simpl in *; try done.
  - apply valuesOK_initialBlocks, Hen.
  - apply valuesOK_initialBlocks, Hen.
  - destruct (tick_blocks dr s) as [-> | ->]; [done |].
    by apply valuesOK_addNewRow.
  - by rewrite toggleBlock_blocks.
  - destruct (sumCheck_blocks u s) as [-> | ->]; [done |].
    rewrite clearEvent_blocks. by apply valuesOK_clear.
Qed.

Lemma addNewRow_ids (dr : Z → Draw) (s : State) (i : string) :
  i ∈ Block.id <$> blocks s → i ∈ Block.id <$> blocks (addNewRow dr s).
Proof.
  intros Hi. destruct (willBeGameOver (blocks s)) eqn:E.
  - by rewrite addNewRow_over.
  - rewrite addNewRow_spawn by done. simpl. rewrite fmap_app.
    apply elem_of_app. left.
    apply list_elem_of_fmap in Hi as (a & -> & Ha).
    apply list_elem_of_fmap. exists (Block.withRow (Block.row a - 1) a).
    split; [done |]. apply elem_of_pushedBlocks. by exists a.
Qed.

Lemma addNewRow_selectedIds (dr : Z → Draw) (s : State) :
  selectedIds (addNewRow dr s) = selectedIds s.
Proof. by destruct (addNewRow_cells dr s) as (bs & g & ->). Qed.

Lemma selectionOK_addNewRow (dr : Z → Draw) (s : State) :
  selectionOK s → selectionOK (addNewRow dr s).
Proof.
  intros [Hnd Hin]. split; rewrite addNewRow_selectedIds; [done |].
  intros i Hi. by apply addNewRow_ids, Hin.
Qed.

Lemma selectionOK_tick (dr : Z → Draw) (s : State) :
  selectionOK s → selectionOK (tick dr s).1.
Proof.
  intros H. destruct (tick_cases dr s)
    as [-> | (_ & _ & _ & [[_ ->] | [_ ->]])]; [done | done |].
  by apply (selectionOK_addNewRow dr s).
Qed.

Lemma selectionOK_toggleBlock (id : string) (s : State) :
  id ∈ Block.id <$> blocks s → selectionOK s → selectionOK (toggleBlock id s).
Proof.
  intros Hid [Hnd Hin]. unfold toggleBlock.
  destruct (gameOver s || isPaused s); [done |].
  split; simpl; case_bool_decide as Hsel.
  - by apply NoDup_filter.
  - apply NoDup_app. split; [done |]. split; [| apply NoDup_singleton].
    intros i Hi ->%list_elem_of_singleton. done.
  - intros i [_ Hi]%list_elem_of_filter. by apply Hin.
  - intros i [Hi | ->%list_elem_of_singleton]%elem_of_app; [by apply Hin | done].
Qed.

Lemma selectionOK_sumCheck (u : Q) (s : State) :
  selectionOK s → selectionOK (sumCheck u s).1.
Proof.
  intros H. destruct (sumCheck_cases u s) as [-> | [-> | (_ & _ & ->)]]; [done | |].
  - split; simpl; [apply NoDup_nil_2 | by intros i ?%elem_of_nil].
  - destruct (clearEvent_cells u s) as (lvl & acc & shown & -> & _).
    split; simpl; [apply NoDup_nil_2 | by intros i ?%elem_of_nil].
Qed.

Lemma selectionOK_initGame (m : GameMode) (dr : Z → Z → Draw) (u : Q) (s : State) :
  selectionOK (initGame m dr u s).
Proof. split; simpl; [apply NoDup_nil_2 | by intros i ?%elem_of_nil]. Qed.

Lemma Played_selectionOK (s : State) : Played s → selectionOK s.
Proof.
  induction 1 as [| e s _ IH Hen].
  - split; simpl; [apply NoDup_nil_2 | by intros i ?%elem_of_nil].
  - destruct e; simpl in *; try done.
    + apply selectionOK_initGame.
    + apply selectionOK_initGame.
    + by apply selectionOK_tick.
    + by apply selectionOK_toggleBlock.
    + by apply selectionOK_sumCheck.
Qed.

(** The values of the selected blocks, as [currentSum] adds them up. *)
Lemma foldl_values (a : Z) (l : list Block) :
  foldl (λ sum b, sum + Block.value b) a l =
  a + foldl (λ sum b, sum + Block.value b) 0 l.
Proof.
  revert a. induction l as [|b l IH]; intros a; simpl; [lia |].
  rewrite IH, (IH (0 + Block.value b)). lia.
Qed.

Lemma foldl_values_ge (l : list Block) :
  valuesOK l → Z.of_nat (length l) ≤ foldl (λ sum b, sum + Block.value b) 0 l.
Proof.
  induction 1 as [|b l Hb _ IH]; simpl; [done |].
  rewrite foldl_values. lia.
Qed.

(** With a well-formed selection, every selected id contributes at least
    one block of value at least 1 to the sum. *)
Lemma selection_le_currentSum (s : State) :
  valuesOK (blocks s) → selectionOK s →
  Z.of_nat (length (selectedIds s)) ≤ currentSum s.
Proof.
  intros Hv [Hnd Hin]. unfold currentSum.
  set (picked := filter (λ b, Block.id b ∈ selectedIds s) (blocks s)).
  etrans; [| apply foldl_values_ge].
  - rewrite <- (length_fmap Block.id picked). apply inj_le.
    apply submseteq_length, NoDup_submseteq; [done |].
    intros i Hi. destruct (proj1 (list_elem_of_fmap _ _ _) (Hin i Hi))
      as (b & -> & Hb).
    apply list_elem_of_fmap. exists b. split; [done |].
    by apply list_elem_of_filter.
  - unfold valuesOK in *. rewrite Forall_forall in Hv. apply Forall_forall.
    intros b [_ Hb]%list_elem_of_filter. by apply Hv.
Qed.

(** ** Invariants of the mounted component *)

Lemma unitRandom_3_10 : unitRandom (3 # 10).
Proof. split; unfold Qle, Qlt; simpl; lia. Qed.

Lemma Played_firstGame : Played firstGame.
Proof.
  apply played_event; [apply played_mount |].
  split; [intros r c |]; apply unitRandom_3_10.
Qed.

(** A click on a block that is on the board. *)
Ltac rendered :=
  cbv beta iota delta [enabled]; apply (bool_decide_unpack _); by vm_compute.

Lemma Played_pairSelected : Played pairSelected.
Proof.
  apply played_event; [| rendered].
  apply played_event; [apply Played_firstGame | rendered].
Qed.

Lemma Played_secondPair : Played secondPair.
Proof.
  apply played_event; [| rendered].
  apply played_event; [| rendered].
  apply played_event; [apply Played_pairSelected | apply unitRandom_3_10].
Qed.

(** X8.  The start level chosen in the menu stays between 1 and 10
    whatever buttons are pressed, so every game starts at a level from 1
    to 10, and the level of the component is never below 1. *)
Theorem start_level_clamped (s : State) :
  Played s →
  1 ≤ startLevel s ≤ 10 ∧ 1 ≤ level s ∧
  (∀ m dr u, 1 ≤ level (initGame m dr u s) ≤ 10) ∧
  1 ≤ startLevel (handle StartLevelDown s) ≤ 10 ∧
  1 ≤ startLevel (handle StartLevelUp s) ≤ 10.
Proof.
  intros (Hsl & Hl & _)%Played_numbersOK.
  split; [done |]. split; [done |]. split; [done |]. simpl. lia.
Qed.

Lemma start_level_clamped_witness :
  1 ≤ startLevel (handle StartLevelDown firstGame) ≤ 10.
Proof. apply (start_level_clamped firstGame Played_firstGame). Defined.

(** X9.  The scroll progress of the component always lies in
    [[0, 100)]: a timer firing that would reach 100 spawns a row and
    leaves it at 0. *)
Theorem scroll_progress_range (s : State) :
  Played s → (0 <= scrollProgress s)%Q ∧ (scrollProgress s < 100)%Q.
Proof.
  intros (_ & _ & _ & _ & _ & _ & H)%Played_numbersOK. exact H.
Qed.

Lemma scroll_progress_range_witness :
  (scrollProgress (handle (Tick constDraw) firstGame) < 100)%Q.
Proof.
  apply (scroll_progress_range (handle (Tick constDraw) firstGame)).
  apply played_event; [apply Played_firstGame |].
  intros c. apply unitRandom_3_10.
Defined.

(** X10.  In every state of the component the score is a non-negative
    multiple of 10, the target lies between 5 and
    [14 + floor(level / 3)], and the level accumulator is not negative. *)
Theorem score_target_ranges (s : State) :
  Played s →
  0 ≤ score s ∧ (10 | score s) ∧
  5 ≤ targetSum s ≤ 14 + level s / 3 ∧
  0 ≤ blocksClearedInLevel s.
Proof.
  intros (_ & _ & Hs & Hk & Ht & Ha & _)%Played_numbersOK. done.
Qed.

Lemma score_target_ranges_witness : 5 ≤ targetSum firstGame ≤ 14.
Proof.
  destruct (score_target_ranges firstGame Played_firstGame) as (_ & _ & H & _).
  exact H.
Defined.

(** X11.  Every block the component ever shows carries a value from 1 to
    10, hence a colour other than the grey default. *)
Theorem block_values_in_range (s : State) :
  Played s →
  Forall (λ b, 1 ≤ Block.value b ≤ 10 ∧
               getBlockColor (Block.value b) ≠ fallbackColor) (blocks s).
Proof.
  intros Hv%Played_valuesOK. eapply Forall_impl; [exact Hv |].
  intros b Hb. split; [done |]. simpl in Hb.
  destruct (Block.value b) as [|p|p]; try lia. small_positive p; discriminate.
Qed.

Lemma block_values_in_range_witness :
  Forall (λ b, 1 ≤ Block.value b ≤ 10 ∧
               getBlockColor (Block.value b) ≠ fallbackColor) (blocks firstGame).
Proof. apply (block_values_in_range firstGame Played_firstGame). Defined.

(** X12.  In play the selection never goes stale: the selected ids are
    distinct, each is the id of a block on the board, and the sum shown is
    at least the number of selected ids, so a non-empty selection has a
    positive sum. *)
Theorem selection_well_formed (s : State) :
  Played s →
  NoDup (selectedIds s) ∧
  (∀ i, i ∈ selectedIds s → ∃ b, b ∈ blocks s ∧ Block.id b = i) ∧
  Z.of_nat (length (selectedIds s)) ≤ currentSum s ∧
  (selectedIds s ≠ [] → 0 < currentSum s).
Proof.
  intros Hp. pose proof (Played_selectionOK s Hp) as Hsel.
  pose proof (selection_le_currentSum s (Played_valuesOK s Hp) Hsel) as Hle.
  destruct Hsel as [Hnd Hin]. split; [done |]. split; [| split; [done |]].
  - intros i Hi. destruct (proj1 (list_elem_of_fmap _ _ _) (Hin i Hi))
      as (b & -> & Hb). by exists b.
  - intros Hne. destruct (selectedIds s); [done |]. simpl in Hle. lia.
Qed.

Lemma selection_well_formed_witness :
  NoDup (selectedIds (handle (ToggleBlock "0") firstGame)).
Proof.
  apply (selection_well_formed (handle (ToggleBlock "0") firstGame)).
  apply played_event; [apply Played_firstGame |].
  change ("0" ∈ Block.id <$> blocks firstGame).
  apply (bool_decide_unpack _). by vm_compute.
Defined.

Lemma Played_accumulator (s : State) :
  Played s → level s ≤ 51 → blocksClearedInLevel s < BLOCKS_PER_LEVEL.
Proof.
  induction 1 as [| e s Hp IH Hen]; [done |].
  destruct e; simpl in *; try done.
  - destruct (tick_cases dr s) as [-> | (_ & _ & _ & [[_ ->] | [_ ->]])];
      [done | done |].
    by destruct (addNewRow_cells dr s) as (bs & g & ->).
  - unfold toggleBlock. by destruct (_ || _).
  - destruct (sumCheck_cases u s) as [-> | [-> | (_ & Heq & ->)]]; [done | done |].
    pose proof (Played_numbersOK s Hp) as (_ & Hl & _ & _ & Ht & Ha & _).
    pose proof (selection_le_currentSum s (Played_valuesOK s Hp)
                  (Played_selectionOK s Hp)) as Hn.
    destruct (clearEvent_cells u s) as (lvl & acc & shown & -> & Hcase).
    simpl. intros Hlvl.
    destruct Hcase as [(? & -> & ->) | (? & -> & ->)]; [done |].
    assert (level s / 3 ≤ 50 / 3) by (apply Z.div_le_mono; lia).
    change (50 / 3) with 16 in *.
    specialize (IH ltac:(lia)). grid.
Qed.

(** X13.  In the states of the mounted component, where [toggleBlock] is
    only ever called with the id of a block on the board (as the block
    buttons do) and random numbers lie in [[0, 1)]: up to level 51 the
    level accumulator stays below [BLOCKS_PER_LEVEL], so the "blocks left"
    figure is between 1 and 30; and up to level 50 a clear event raises
    the level by exactly the number of thresholds its count crosses, with
    the remainder carried. *)
Theorem accumulator_below_threshold (s : State) :
  Played s → level s ≤ 51 →
  0 ≤ blocksClearedInLevel s < BLOCKS_PER_LEVEL ∧
  1 ≤ BLOCKS_PER_LEVEL - blocksClearedInLevel s ≤ 30 ∧
  (∀ u, level s ≤ 50 → selectedIds s ≠ [] → currentSum s = targetSum s →
     let n := Z.of_nat (length (selectedIds s)) in
     let s' := (sumCheck u s).1 in
     level s' = level s + (blocksClearedInLevel s + n) / BLOCKS_PER_LEVEL ∧
     blocksClearedInLevel s' = (blocksClearedInLevel s + n) mod BLOCKS_PER_LEVEL).
Proof.
  intros Hp Hlvl. pose proof (Played_accumulator s Hp Hlvl) as Hacc.
  pose proof (Played_numbersOK s Hp) as (_ & Hl & _ & _ & Ht & Ha & _).
  split; [lia |]. split; [grid |].
  intros u H50 Hne Heq. cbv zeta.
  destruct (sumCheck_cases u s) as [Hs | [Hs | (_ & _ & ->)]].
  - exfalso. unfold sumCheck in Hs. rewrite bool_decide_eq_false_2 in Hs by done.
    rewrite (proj2 (Z.eqb_eq _ _) Heq) in Hs.
    pose proof (clearEvent_trace u s) as Hc. rewrite Hs in Hc.
    by apply elem_of_nil in Hc.
  - exfalso. unfold sumCheck in Hs. rewrite bool_decide_eq_false_2 in Hs by done.
    rewrite (proj2 (Z.eqb_eq _ _) Heq) in Hs.
    pose proof (clearEvent_trace u s) as Hc. rewrite Hs in Hc.
    by apply elem_of_nil in Hc.
  - pose proof (selection_le_currentSum s (Played_valuesOK s Hp)
                  (Played_selectionOK s Hp)) as Hn.
    assert (level s / 3 ≤ 50 / 3) by (apply Z.div_le_mono; lia).
    change (50 / 3) with 16 in *.
    destruct (clearEvent_cells u s) as (lvl & acc & shown & -> & Hcase).
    simpl. change BLOCKS_PER_LEVEL with 30 in *.
    destruct Hcase as [(? & -> & ->) | (? & -> & ->)].
    + rewrite Z.div_small, Z.mod_small by lia. lia.
    + replace (blocksClearedInLevel s + Z.of_nat (length (selectedIds s)))
        with ((blocksClearedInLevel s + Z.of_nat (length (selectedIds s)) - 30)
              + 1 * 30) at 1 3 by lia.
      rewrite Z.div_add, Z.mod_add by lia.
      rewrite Z.div_small, Z.mod_small by lia. lia.
Qed.

Lemma accumulator_below_threshold_witness :
  blocksClearedInLevel secondPair = 2 ∧
  blocksClearedInLevel (sumCheck 0 secondPair).1 = 4.
Proof.
  split; [reflexivity |].
  destruct (accumulator_below_threshold secondPair Played_secondPair)
    as (_ & _ & Hclear); [simpl; lia |].
  destruct (Hclear 0%Q) as [_ Hacc];
    [simpl; lia | discriminate | reflexivity |].
  rewrite Hacc. reflexivity.
Defined.

(** X14.  Within a game the score and the level never go down: every
    event of the component other than the start of a game leaves both at
    least as high as they were. *)
Theorem score_level_monotone (e : Event) (s : State) :
  Played s → startsGame e = false →
  score s ≤ score (handle e s) ∧ level s ≤ level (handle e s).
Proof.
  intros Hp He. pose proof (Played_numbersOK s Hp) as (_ & Hl & _).
  destruct e; simpl in *; try done.
  - destruct (tick_cases dr s) as [-> | (_ & _ & _ & [[_ ->] | [_ ->]])];
      [done | done |].
    by destruct (addNewRow_cells dr s) as (bs & g & ->).
  - unfold toggleBlock. by destruct (_ || _).
  - destruct (sumCheck_cases u s) as [-> | [-> | (_ & _ & ->)]]; [done | done |].
    destruct (clearEvent_cells u s) as (lvl & acc & shown & -> & Hcase).
    simpl. split; [nia |].
    destruct Hcase as [(_ & -> & _) | (_ & -> & _)]; lia.
Qed.

Lemma score_level_monotone_witness :
  score pairSelected ≤ score (handle (SumCheck (3 # 10)) pairSelected) ∧
  score (handle (SumCheck (3 # 10)) pairSelected) = 20.
Proof.
  split; [| reflexivity].
  apply (score_level_monotone (SumCheck (3 # 10)) pairSelected
           Played_pairSelected eq_refl).
Defined.

(** ** Toggling *)

Lemma setSelectedIds_same (s : State) : setSelectedIds (λ _, selectedIds s) s = s.
Proof. by destruct s. Qed.

Lemma currentSum_ext (s1 s2 : State) :
  blocks s1 = blocks s2 →
  (∀ i, i ∈ selectedIds s1 ↔ i ∈ selectedIds s2) →
  currentSum s1 = currentSum s2.
Proof.
  intros Hb Hsel. unfold currentSum. rewrite Hb. f_equal.
  apply list_filter_iff. intros b. apply Hsel.
Qed.

Lemma filter_ne_snoc (x : string) (l : list string) :
  NoDup l → x ∈ l → filter (λ i, i ≠ x) l ++ [x] ≡ₚ l.
Proof.
  induction 1 as [|y l Hy Hnd IH]; intros Hx; [by apply elem_of_nil in Hx |].
  destruct (decide (y = x)) as [-> | Hne].
  - rewrite filter_cons_False by (intros H; by apply H).
    rewrite filter_all by (apply Forall_forall; intros i Hi ->; done).
    symmetry. apply Permutation_cons_append.
  - apply elem_of_cons in Hx as [-> | Hx]; [done |].
    rewrite filter_cons_True by done. simpl. f_equiv. by apply IH.
Qed.

Lemma filter_ne_app_singleton (x : string) (l : list string) :
  x ∉ l → filter (λ i, i ≠ x) (l ++ [x]) = l.
Proof.
  intros Hx. rewrite filter_app.
  rewrite filter_all by (apply Forall_forall; intros i Hi ->; done).
  rewrite filter_cons_False by (intros H; by apply H). apply app_nil_r.
Qed.

(** X15.  In a state that is neither over nor paused and whose selected
    ids are distinct, toggling the same id twice gives back the selection
    up to order (a block that was selected moves to the end), leaves the
    sum shown unchanged and touches nothing else; when the id was not
    selected the state is exactly as before. *)
Theorem toggle_twice (id : string) (s : State) :
  gameOver s = false → isPaused s = false → NoDup (selectedIds s) →
  let s2 := toggleBlock id (toggleBlock id s) in
  selectedIds s2 ≡ₚ selectedIds s ∧
  currentSum s2 = currentSum s ∧
  s2 = setSelectedIds (λ _, selectedIds s2) s ∧
  (id ∉ selectedIds s → s2 = s).
Proof.
  intros Hg Hp Hnd. cbv zeta.
  rewrite (toggleBlock_active id s) by done.
  rewrite toggleBlock_active by done.
  unfold setSelectedIds. cbn [selectedIds blocks].
  assert (∀ s2, blocks s2 = blocks s → selectedIds s2 ≡ₚ selectedIds s →
    currentSum s2 = currentSum s) as Hsum.
  { intros s2 Hb Hl. apply currentSum_ext; [done |]. intros i. by rewrite Hl. }
  destruct (decide (id ∈ selectedIds s)) as [Hin | Hin].
  - rewrite (bool_decide_eq_true_2 (id ∈ selectedIds s)) by done.
    rewrite bool_decide_eq_false_2
      by (intros [? _]%list_elem_of_filter; done).
    pose proof (filter_ne_snoc id _ Hnd Hin) as Hperm.
    split; [done |]. split; [by apply Hsum |]. split; [done |].
    intros Hn. by destruct Hn.
  - rewrite (bool_decide_eq_false_2 (id ∈ selectedIds s)) by done.
    rewrite bool_decide_eq_true_2
      by (apply elem_of_app; right; by apply list_elem_of_singleton).
    rewrite filter_ne_app_singleton by done.
    split; [done |]. split; [by apply Hsum |]. split; [done |].
    intros _. by destruct s.
Qed.

Lemma toggle_twice_witness :
  toggleBlock "0" (toggleBlock "0" firstGame) = firstGame.
Proof.
  apply (toggle_twice "0" firstGame eq_refl eq_refl); [apply NoDup_nil_2 |].
  apply not_elem_of_nil.
Defined.

Lemma sum_unselected (big small : list string) (x : string) (bs : list Block) :
  (∀ i, i ∈ big ↔ i = x ∨ i ∈ small) →
  (∀ b, b ∈ bs → Block.id b ≠ x) →
  foldl (λ sum b, sum + Block.value b) 0 (filter (λ b, Block.id b ∈ big) bs) =
  foldl (λ sum b, sum + Block.value b) 0 (filter (λ b, Block.id b ∈ small) bs).
Proof.
  intros Hbig Hno. f_equal. induction bs as [|b bs IH]; [done |].
  rewrite !filter_cons.
  rewrite IH by (intros b' Hb'; apply Hno; by right).
  assert (Block.id b ≠ x) as Hne by (apply Hno; by left).
  destruct (decide (Block.id b ∈ small)) as [Hs | Hs].
  - rewrite decide_True; [done |]. apply Hbig. by right.
  - rewrite decide_False; [done |]. rewrite Hbig. tauto.
Qed.

Lemma sum_selected (big small : list string) (b : Block) (bs : list Block) :
  (∀ i, i ∈ big ↔ i = Block.id b ∨ i ∈ small) → Block.id b ∉ small →
  NoDup (Block.id <$> bs) → b ∈ bs →
  foldl (λ sum b, sum + Block.value b) 0 (filter (λ b, Block.id b ∈ big) bs) =
  foldl (λ sum b, sum + Block.value b) 0 (filter (λ b, Block.id b ∈ small) bs)
    + Block.value b.
Proof.
  intros Hbig Hsmall. induction bs as [|b0 bs IH]; intros Hnd Hb;
    [by apply elem_of_nil in Hb |].
  rewrite fmap_cons in Hnd. apply NoDup_cons in Hnd as [Hb0 Hnd].
  rewrite !filter_cons.
  apply elem_of_cons in Hb as [<- | Hb].
  - rewrite decide_True by (apply Hbig; by left).
    rewrite decide_False by done. simpl.
    rewrite foldl_values.
    rewrite (sum_unselected big small (Block.id b) bs Hbig); [lia |].
    intros b' Hb' Heq. apply Hb0. rewrite <- Heq. by apply list_elem_of_fmap_2.
  - assert (Block.id b0 ≠ Block.id b) as Hne.
    { intros Heq. apply Hb0. rewrite Heq. by apply list_elem_of_fmap_2. }
    destruct (decide (Block.id b0 ∈ small)) as [Hs | Hs].
    + rewrite decide_True by (apply Hbig; by right). simpl.
      rewrite foldl_values, (foldl_values (0 + _)), IH by done. lia.
    + rewrite decide_False by (rewrite Hbig; tauto). by apply IH.
Qed.

(** X16.  On a board whose block ids are distinct, in a state that is
    neither over nor paused, clicking a block that is not selected raises
    the sum shown by the block's value, and clicking a selected block
    lowers it by that value. *)
Theorem toggle_changes_sum (b : Block) (s : State) :
  gameOver s = false → isPaused s = false →
  NoDup (Block.id <$> blocks s) → b ∈ blocks s →
  (Block.id b ∉ selectedIds s →
     currentSum (toggleBlock (Block.id b) s) = currentSum s + Block.value b) ∧
  (Block.id b ∈ selectedIds s →
     currentSum (toggleBlock (Block.id b) s) = currentSum s - Block.value b).
Proof.
  intros Hg Hp Hnd Hb. rewrite toggleBlock_active by done.
  unfold currentSum. simpl. split; intros Hsel.
  - rewrite bool_decide_eq_false_2 by done.
    apply sum_selected; [| done | done | done].
    intros i. rewrite elem_of_app, list_elem_of_singleton. tauto.
  - rewrite bool_decide_eq_true_2 by done.
    rewrite (sum_selected (selectedIds s)
               (filter (λ i, i ≠ Block.id b) (selectedIds s)) b (blocks s));
      [lia | | | done | done].
    + intros i. rewrite list_elem_of_filter.
      destruct (decide (i = Block.id b)) as [-> | Hne]; tauto.
    + intros [Hne _]%list_elem_of_filter. done.
Qed.

Lemma toggle_changes_sum_witness :
  currentSum (toggleBlock "0" firstGame) = currentSum firstGame + 4.
Proof.
  assert (NoDup (Block.id <$> blocks firstGame)) as Hnd
    by (apply (bool_decide_unpack _); by vm_compute).
  assert (Block.mk "0" 4 9 0 None ∈ blocks firstGame) as Hb
    by apply list_elem_of_here.
  destruct (toggle_changes_sum _ firstGame eq_refl eq_refl Hnd Hb) as [H _].
  apply H. apply not_elem_of_nil.
Defined.

(** ** The sum check at rest *)

Lemma sumCheck_empty (u : Q) (s : State) :
  selectedIds s = [] → sumCheck u s = (s, []).
Proof. intros H. unfold sumCheck. by rewrite bool_decide_eq_true_2. Qed.

(** X17.  The sum check settles in one run: after it, either the
    selection is empty or the sum is below the target, and a second run
    (the effect's own writes trigger one) changes nothing and signals
    nothing. *)
Theorem sumCheck_settles (u u' : Q) (s : State) :
  let s' := (sumCheck u s).1 in
  sumCheck u' s' = (s', []) ∧
  (selectedIds s' = [] ∨ currentSum s' < targetSum s').
Proof.
  cbv zeta. unfold sumCheck at 2 3 4 5 6. case_bool_decide as Hsel.
  - simpl. split; [by apply sumCheck_empty | by left].
  - destruct (Z.eqb_spec (currentSum s) (targetSum s)) as [Heq | Hne].
    + destruct (clearEvent_cells u s) as (lvl & acc & shown & -> & _).
      split; [by apply sumCheck_empty | by left].
    + destruct (Z.ltb_spec (targetSum s) (currentSum s)) as [Hgt | Hle]; simpl.
      * split; [by apply sumCheck_empty | by left].
      * split; [apply sumCheck_lt; lia | right; lia].
Qed.

(** ** Game over and pause *)

Lemma runTicks_paused (n : nat) (dr : nat → Z → Draw) (s : State) :
  isPaused s = true → runTicks n dr s = (s, []).
Proof.
  revert dr s. induction n as [|n IH]; intros dr s Hp; [done |].
  rewrite runTicks_S, tick_idle.
  - simpl. by rewrite IH.
  - rewrite Hp. simpl. apply andb_false_r.
Qed.

Lemma sumCheck_flags (u : Q) (s : State) :
  gameOver (sumCheck u s).1 = gameOver s ∧
  isPaused (sumCheck u s).1 = isPaused s ∧
  gameStarted (sumCheck u s).1 = gameStarted s.
Proof.
  destruct (sumCheck_cases u s) as [-> | [-> | (_ & _ & ->)]]; [done | done |].
  by destruct (clearEvent_cells u s) as (lvl & acc & shown & -> & _).
Qed.

(** X18.  Game over is terminal: once [gameOver] is set, every event of
    the component other than the start of a game leaves it set, timer
    firings and clicks on blocks change nothing at all, and only
    [initGame] clears it. *)
Theorem game_over_terminal (e : Event) (s : State) :
  gameOver s = true →
  (startsGame e = false → gameOver (handle e s) = true) ∧
  (∀ n dr, runTicks n dr s = (s, [])) ∧
  (∀ id, toggleBlock id s = s) ∧
  (∀ m dr u, gameOver (initGame m dr u s) = false).
Proof.
  intros Hg. split; [| split; [| split; [| done]]].
  - intros He. destruct e; simpl in *; try done.
    + rewrite tick_idle; [done |]. rewrite Hg. by destruct (gameStarted s).
    + unfold toggleBlock. by rewrite Hg.
    + by rewrite (proj1 (sumCheck_flags u s)).
  - intros n dr. by apply runTicks_over.
  - intros id. unfold toggleBlock. by rewrite Hg.
Qed.

Lemma game_over_terminal_witness :
  toggleBlock "0" (setGameOver true firstGame) = setGameOver true firstGame.
Proof.
  apply (game_over_terminal PauseButton (setGameOver true firstGame)).
  reflexivity.
Defined.

(** X19.  Pausing freezes the game and loses nothing: while paused, timer
    firings and clicks on blocks change nothing, and pressing the pause
    button again, or "continue", gives back exactly the state before the
    pause. *)
Theorem pause_resume (s : State) :
  isPaused s = false →
  let p := handle PauseButton s in
  isPaused p = true ∧
  handle PauseButton p = s ∧ handle Continue p = s ∧
  (∀ n dr, runTicks n dr p = (p, [])) ∧
  (∀ id, toggleBlock id p = p).
Proof.
  intros Hp. cbv zeta. simpl. rewrite Hp. simpl.
  split; [done |]. split; [destruct s; simpl in *; by subst |].
  split; [destruct s; simpl in *; by subst |]. split.
  - intros n dr. by apply runTicks_paused.
  - intros id. unfold toggleBlock. simpl. by rewrite orb_true_r.
Qed.

Lemma pause_resume_witness :
  handle Continue (handle PauseButton firstGame) = firstGame.
Proof. apply (pause_resume firstGame eq_refl). Defined.

(** ** A new game *)

(** X20.  [initGame] builds a complete fresh game whatever the state
    before: the board holds [INITIAL_ROWS * GRID_COLS] blocks, none marked
    new, occupying exactly the cells of the bottom [INITIAL_ROWS] rows;
    score, selection, accumulator and scroll progress are reset, the game
    is started, not over, not paused, in the chosen mode and at the start
    level; nothing of the previous state but the start level is kept. *)
Theorem initGame_fresh (m : GameMode) (dr : Z → Z → Draw) (u : Q) (s : State) :
  let s' := initGame m dr u s in
  length (blocks s') = Z.to_nat (INITIAL_ROWS * GRID_COLS) ∧
  (∀ r c, (∃ b, b ∈ blocks s' ∧ Block.row b = r ∧ Block.col b = c) ↔
          GRID_ROWS - INITIAL_ROWS ≤ r < GRID_ROWS ∧ 0 ≤ c < GRID_COLS) ∧
  Forall (λ b, Block.isNew b = None) (blocks s') ∧
  score s' = 0 ∧ selectedIds s' = [] ∧ blocksClearedInLevel s' = 0 ∧
  scrollProgress s' = 0%Q ∧
  gameStarted s' = true ∧ gameOver s' = false ∧ isPaused s' = false ∧
  mode s' = m ∧ level s' = startLevel s ∧ startLevel s' = startLevel s ∧
  targetSum s' = generateTarget (startLevel s) u ∧
  (∀ s2, startLevel s2 = startLevel s → initGame m dr u s2 = s').
Proof.
  cbv zeta. split; [reflexivity |]. split; [| split].
  - intros r c. change (blocks (initGame m dr u s)) with (initialBlocks dr).
    split.
    + intros (b & (r0 & c0 & Hr & Hc & ->)%elem_of_initialBlocks & <- & <-).
      simpl. grid.
    + intros [Hr Hc]. eexists. split; [| split].
      * apply elem_of_initialBlocks. exists (GRID_ROWS - 1 - r), c.
        split; [grid |]. split; [done | reflexivity].
      * simpl. lia.
      * done.
  - change (blocks (initGame m dr u s)) with (initialBlocks dr).
    apply Forall_forall. by intros b (_ & _ & H)%initialBlocks_spec.
  - repeat split. intros s2 Hs2. destruct s, s2. simpl in Hs2. by subst.
Qed.

(** ** What a clear event keeps *)

Lemma gravityMoves_stripRow (rem : list Block) :
  stripRow <$> (gravityMoves rem).*2 = stripRow <$> (gravityMoves rem).*1.
Proof.
  rewrite <- !list_fmap_compose. apply list_fmap_ext.
  intros i [a a'] Hm%list_elem_of_lookup_2.
  by apply elem_of_gravityMoves in Hm as (c & j & _ & _ & ->).
Qed.

Lemma gravity_stripRow (bs : list Block) :
  stripRow <$> gravity bs ≡ₚ
  stripRow <$> filter (λ b, 0 ≤ Block.col b < GRID_COLS) bs.
Proof.
  rewrite <- gravityMoves_snd, gravityMoves_stripRow.
  by rewrite gravityMoves_perm.
Qed.

(** X21.  A clear event removes exactly the blocks whose id is selected
    and alters nothing but rows: up to order and row, the blocks after it
    are the unselected blocks of the grid columns, each with its id,
    value, column and [isNew] flag; a block in no grid column, if there
    were one, would be dropped.  The score grows by 10 points per selected
    id and level. *)
Theorem clear_keeps_unselected (u : Q) (s : State) :
  let s' := (clearEvent u s).1 in
  stripRow <$> blocks s' ≡ₚ
    stripRow <$> filter (λ b, 0 ≤ Block.col b < GRID_COLS)
                   (filter (λ b, Block.id b ∉ selectedIds s) (blocks s)) ∧
  (∀ b, b ∈ blocks s' →
     (Block.id b ∉ selectedIds s) ∧ 0 ≤ Block.col b < GRID_COLS) ∧
  (Forall (λ b, 0 ≤ Block.col b < GRID_COLS) (blocks s) →
     length (blocks s') =
     length (filter (λ b, Block.id b ∉ selectedIds s) (blocks s))) ∧
  score s' = score s + 10 * Z.of_nat (length (selectedIds s)) * level s.
Proof.
  cbv zeta. rewrite clearEvent_blocks. split; [apply gravity_stripRow |].
  split; [| split].
  - intros b Hb. split.
    + apply elem_of_gravity_source in Hb as (y & [Hy _]%list_elem_of_filter & Heq).
      injection Heq as -> _ _ _. done.
    + apply elem_of_gravity in Hb as (c & i & y & Hc & Hy & ->). simpl.
      by rewrite (colBlocks_col c _ y (list_elem_of_lookup_2 _ _ _ Hy)).
  - intros Hin. rewrite <- (length_fmap stripRow), gravity_stripRow, length_fmap.
    unfold remaining. f_equal. apply filter_all.
    rewrite Forall_forall in Hin. apply Forall_forall.
    intros b [_ Hb]%list_elem_of_filter. by apply Hin.
  - destruct (clearEvent_cells u s) as (lvl & acc & shown & -> & _). simpl. lia.
Qed.

(** ** Blocks only move *)

Lemma addNewRow_block_origin (dr : Z → Draw) (s : State) (b' : Block) :
  b' ∈ blocks (addNewRow dr s) →
  (∃ b, b ∈ blocks s ∧ stripRow b' = stripRow b) ∨
  (Block.isNew b' = Some true ∧ Block.row b' = GRID_ROWS - 1).
Proof.
  destruct (willBeGameOver (blocks s)) eqn:E.
  - rewrite addNewRow_over by done. simpl. intros Hb. left. by exists b'.
  - rewrite addNewRow_spawn by done. simpl.
    intros [(a & Ha & ->)%elem_of_pushedBlocks | Hb%newRow_spec]%elem_of_app.
    + left. by exists a.
    + right. tauto.
Qed.

(** X24.  No event of the component other than the start of a game
    rewrites a block: every block on the board after the event is either a
    block that was there before, with the same id, value, column and
    [isNew] flag (only the row may differ), or a block just spawned, at
    the bottom row and flagged [isNew].  In particular the flag is never
    cleared. *)
Theorem blocks_only_move (e : Event) (s : State) (b' : Block) :
  startsGame e = false → b' ∈ blocks (handle e s) →
  (∃ b, b ∈ blocks s ∧ stripRow b' = stripRow b) ∨
  (Block.isNew b' = Some true ∧ Block.row b' = GRID_ROWS - 1).
Proof.
  intros He Hb.
  assert (b' ∈ blocks s →
          (∃ b, b ∈ blocks s ∧ stripRow b' = stripRow b) ∨
          (Block.isNew b' = Some true ∧ Block.row b' = GRID_ROWS - 1)) as Hsame
    by (intros H; left; by exists b').
  destruct e; simpl in *; try done; try by apply Hsame.
  - destruct (tick_blocks dr s) as [Heq | Heq]; rewrite Heq in Hb;
      [by apply Hsame | by apply (addNewRow_block_origin dr)].
  - rewrite toggleBlock_blocks in Hb. by apply Hsame.
  - destruct (sumCheck_blocks u s) as [Heq | Heq]; rewrite Heq in Hb;
      [by apply Hsame |].
    rewrite clearEvent_blocks in Hb.
    apply elem_of_gravity_source in Hb as (y & [_ Hy]%list_elem_of_filter & Heq').
    left. by exists y.
Qed.

Lemma blocks_only_move_witness :
  (∃ b, b ∈ blocks firstGame ∧
        stripRow (Block.mk "0" 4 8 0 None) = stripRow b) ∨
  (Block.isNew (Block.mk "0" 4 8 0 None) = Some true ∧
   Block.row (Block.mk "0" 4 8 0 None) = GRID_ROWS - 1).
Proof.
  apply (blocks_only_move (Tick constDraw)
           (setScrollProgress (9999 # 100) firstGame)); [reflexivity |].
  apply list_elem_of_here.
Defined.

(** ** A game that cannot end *)







